(** * laplax: Hessian-vector products and dataset evaluation

    A shallow embedding of [laplax/curv/hessian.py] and
    [laplax/eval/utils.py].

    Floating-point numbers are idealised as exact rationals ([Qc]), so that
    the statements below are about the algorithms and not about rounding.

    The Python functions of both files run under JAX transformations
    ([jax.grad], [jax.jvp], [jax.vmap], [jax.lax.map]).  JAX executes a
    Python function once, on tracers, and records the arithmetic it performs:
    Python-level effects (argument binding, dictionary keys, raised
    exceptions) happen at trace time, array arithmetic is recorded.  The
    embedding follows that split: Python-level values are ordinary Rocq
    values in an error monad, recorded arithmetic is an expression ([expr])
    over the parameters or a function of the mapped data point. *)

From Stdlib Require Import QArith Qcanon Ring Lia List Bool Arith.
From stdpp Require Import base option list strings gmap.

(** ** Python: outcomes of a call, exceptions, argument binding *)

Module Py.

(** The exceptions that the two files and the library calls they make can
    raise.  The [TypeError]s of argument binding carry the name of the called
    function and the offending parameter names, as CPython's messages do. *)
Inductive exn :=
| TypeError_unexpected_keyword (fname key : string)
| TypeError_multiple_values (fname key : string)
| TypeError_too_many_positional (fname : string) (takes given : nat)
| TypeError_missing_arguments (fname : string) (missing : list string)
| TypeError_incompatible_shapes (s1 s2 : list nat)
| TypeError_grad_non_scalar (shape : list nat)
| TypeError (msg : string)
| ValueError (msg : string)
| NameError (name : string)
| KeyError (key : string)
| AttributeError (obj attr : string)
| ZeroDivisionError.

(** A call returns a value, raises, or is still running when the fuel of the
    interpreter is spent. *)
Inductive outcome (A : Type) :=
| Returned (a : A)
| Raised (e : exn)
| Unfinished.
Arguments Returned {A} a.
Arguments Raised {A} e.
Arguments Unfinished {A}.

Definition bind_outcome {A B} (c : outcome A) (k : A -> outcome B) : outcome B :=
  match c with
  | Returned a => k a
  | Raised e => Raised e
  | Unfinished => Unfinished
  end.

Notation "x <- c ;; k" := (bind_outcome c (fun x => k))
  (at level 100, c at next level, right associativity).

(** [d[key]] on a dictionary. *)
Definition getitem {A} (d : gmap string A) (key : string) : outcome A :=
  match d !! key with
  | Some a => Returned a
  | None => Raised (KeyError key)
  end.

(** The signature of a Python function: the name under which its error
    messages report it, the parameters without and with a default, and
    whether it ends in [**kwargs]. *)
Record signature := {
  sig_name : string;
  sig_required : list string;
  sig_optional : list string;
  sig_var_kw : bool
}.

Definition formals (s : signature) : list string :=
  sig_required s ++ sig_optional s.

(** One keyword argument of a call, added to what is bound so far. *)
Definition bind_keyword {A} (s : signature) (acc : outcome (gmap string A))
    (kv : string * A) : outcome (gmap string A) :=
  bound <- acc ;;
  if bool_decide (kv.1 ∈ formals s) then
    if bool_decide (is_Some (bound !! kv.1))
    then Raised (TypeError_multiple_values (sig_name s) kv.1)
    else Returned (<[kv.1 := kv.2]> bound)
  else if sig_var_kw s then Returned (<[kv.1 := kv.2]> bound)
  else Raised (TypeError_unexpected_keyword (sig_name s) kv.1).

(** CPython's binding of the positional and keyword arguments of a call to the
    parameters of [f]: positional arguments fill the parameters in order,
    keywords are matched by name (an unknown or a repeated one raises), then
    the number of positional arguments is checked, then the parameters
    without a default that are still unbound are reported. *)
Definition bind_arguments {A} (s : signature) (pos : list A)
    (kw : list (string * A)) : outcome (gmap string A) :=
  bound <- foldl (bind_keyword s) (Returned (list_to_map (zip (formals s) pos))) kw ;;
  if length (formals s) <? length pos
  then Raised (TypeError_too_many_positional (sig_name s) (length (formals s)) (length pos))
  else match filter (fun k => bound !! k = None) (sig_required s) with
       | [] => Returned bound
       | missing => Raised (TypeError_missing_arguments (sig_name s) missing)
       end.

End Py.
Export Py.

(** ** Numbers and automatic differentiation (the JAX collaborator) *)

Abbreviation K := Qc.
Definition q (z : Z) : K := Q2Qc (inject_Z z).
Definition half : K := Q2Qc (1 # 2).
#[global] Instance K_eq_dec : EqDecision K := Qc_eq_dec.
#[global] Instance K_inhabited : Inhabited K := populate 0%Qc.

(** A smooth unary primitive is given with all its derivatives: [d k] is the
    k-th derivative, so that the differentiation rule of [d k] is [d (S k)]. *)
Definition tower := nat -> K -> K.

(** What JAX records while tracing a function of the parameters: variable
    [Var i] is the i-th entry of the (flattened) parameter vector. *)
Inductive expr :=
| Var (i : nat)
| Const (c : K)
| Add (a b : expr)
| Sub (a b : expr)
| Mul (a b : expr)
| Prim (d : tower) (k : nat) (a : expr).

(** The number-like values an expression can be run on. *)
Class Num (T : Type) := {
  num_const : K -> T;
  num_add : T -> T -> T;
  num_sub : T -> T -> T;
  num_mul : T -> T -> T;
  num_prim : tower -> nat -> T -> T
}.

#[global] Instance K_num : Num K := {
  num_const c := c;
  num_add := Qcplus;
  num_sub := Qcminus;
  num_mul := Qcmult;
  num_prim d k x := d k x
}.

(** Forward mode: a primal value with its tangent; every operation carries
    its JVP rule. *)
Definition dual (T : Type) : Type := T * T.

#[global] Instance dual_num {T} `{Num T} : Num (dual T) := {
  num_const c := (num_const c, num_const 0%Qc);
  num_add x y := (num_add x.1 y.1, num_add x.2 y.2);
  num_sub x y := (num_sub x.1 y.1, num_sub x.2 y.2);
  num_mul x y := (num_mul x.1 y.1, num_add (num_mul x.2 y.1) (num_mul x.1 y.2));
  num_prim d k x := (num_prim d k x.1, num_mul (num_prim d (S k) x.1) x.2)
}.

Section Interp.
Context {T : Type} `{Num T}.

Definition env_of (xs : list T) : nat -> T :=
  fun i => nth i xs (num_const 0%Qc).

Fixpoint eval (env : nat -> T) (e : expr) : T :=
  match e with
  | Var i => env i
  | Const c => num_const c
  | Add a b => num_add (eval env a) (eval env b)
  | Sub a b => num_sub (eval env a) (eval env b)
  | Mul a b => num_mul (eval env a) (eval env b)
  | Prim d k a => num_prim d k (eval env a)
  end.

(** Reverse mode: the cotangent [ct] of the value of [e] is pushed back to
    the variables; [backprop env e ct i] is what reaches variable [i]. *)
Fixpoint backprop (env : nat -> T) (e : expr) (ct : T) (i : nat) : T :=
  match e with
  | Var j => if (i =? j)%nat then ct else num_const 0%Qc
  | Const _ => num_const 0%Qc
  | Add a b => num_add (backprop env a ct i) (backprop env b ct i)
  | Sub a b =>
      num_add (backprop env a ct i)
              (backprop env b (num_sub (num_const 0%Qc) ct) i)
  | Mul a b =>
      num_add (backprop env a (num_mul ct (eval env b)) i)
              (backprop env b (num_mul (eval env a) ct) i)
  | Prim d k a =>
      backprop env a (num_mul ct (num_prim d (S k) (eval env a))) i
  end.

(** The gradient of a scalar expression at [xs]: one cotangent per entry. *)
Definition gradient (e : expr) (xs : list T) : list T :=
  map (backprop (env_of xs) e (num_const 1%Qc)) (seq 0 (length xs)).

End Interp.

(** ** Arrays *)

(** An n-dimensional array: its shape and its entries in row-major order. *)
Record ndarray (T : Type) := NDArray { shape : list nat; data : list T }.
Arguments NDArray {T} shape data.
Arguments shape {T} _.
Arguments data {T} _.

Definition scalar {T} (x : T) : ndarray T := NDArray [] [x].
Definition vector {T} (xs : list T) : ndarray T := NDArray [length xs] xs.
Definition array_map {A B} (f : A -> B) (a : ndarray A) : ndarray B :=
  NDArray (shape a) (map f (data a)).

Definition list_prod (s : list nat) : nat := foldr Nat.mul 1 s.

Definition well_shaped {T} (a : ndarray T) : Prop :=
  length (data a) = list_prod (shape a).

(** [chunks n len l]: the first [n] consecutive blocks of [len] entries. *)
Fixpoint chunks {A} (n len : nat) (l : list A) : list (list A) :=
  match n with
  | 0 => []
  | S n' => take len l :: chunks n' len (drop len l)
  end.

(** [a[0], a[1], ...] along the leading axis, and [jnp.stack]. *)
Definition rows {T} (a : ndarray T) : list (ndarray T) :=
  match shape a with
  | [] => []
  | n :: s => map (NDArray s) (chunks n (list_prod s) (data a))
  end.

Definition stack {T} (row_shape : list nat) (ys : list (ndarray T)) : ndarray T :=
  NDArray (length ys :: row_shape) (concat (map data ys)).

(** NumPy broadcasting of two shapes, aligned at the trailing axis. *)
Fixpoint broadcast_shapes_rev (r1 r2 : list nat) : option (list nat) :=
  match r1, r2 with
  | [], r => Some r
  | r, [] => Some r
  | a :: r1', b :: r2' =>
      match broadcast_shapes_rev r1' r2' with
      | None => None
      | Some r =>
          if a =? b then Some (a :: r)
          else if a =? 1 then Some (b :: r)
          else if b =? 1 then Some (a :: r)
          else None
      end
  end.

Definition broadcast_shapes (s1 s2 : list nat) : option (list nat) :=
  option_map (@rev nat) (broadcast_shapes_rev (rev s1) (rev s2)).

Definition pad_shape (n : nat) (s : list nat) : list nat :=
  repeat 1 (n - length s) ++ s.

(** The entries of an array of shape [src] seen at shape [dst]; [src] has
    the length of [dst] and each of its axes equals that of [dst] or is 1. *)
Fixpoint broadcast_data {T} (src dst : list nat) (d : list T) : list T :=
  match src, dst with
  | a :: src', b :: dst' =>
      if a =? b
      then concat (map (broadcast_data src' dst') (chunks a (list_prod src') d))
      else concat (repeat (broadcast_data src' dst' d) b)
  | _, _ => d
  end.

Definition broadcast_to {T} (a : ndarray T) (s : list nat) : ndarray T :=
  NDArray s (broadcast_data (pad_shape (length s) (shape a)) s (data a)).

(** A binary operator of [jax.numpy] applied entry by entry. *)
Definition elementwise {T} (f : T -> T -> T) (a b : ndarray T) : outcome (ndarray T) :=
  match broadcast_shapes (shape a) (shape b) with
  | None => Raised (TypeError_incompatible_shapes (shape a) (shape b))
  | Some s =>
      Returned (NDArray s (zip_with f (data (broadcast_to a s)) (data (broadcast_to b s))))
  end.

(** [a - b] of a traced array and a concrete one. *)
Definition array_sub (a : ndarray expr) (b : ndarray K) : outcome (ndarray expr) :=
  elementwise Sub a (array_map Const b).

Definition esum (es : list expr) : expr := foldr Add (Const 0%Qc) es.

(** ** The differentiation engine: [jax.grad], [jax.jvp], [jax.vmap] *)

(** A Python function of the parameters, as JAX sees it: calling it on the
    parameter tracer (with the fuel given) yields the traced result. *)
Definition traced_fn := nat -> outcome (ndarray expr).

(** [jax.grad(func)]: traces [func], insists on a scalar result and returns
    its reverse-mode gradient; the result is again a function that can be
    run on any kind of number. *)
Definition jax_grad (func : traced_fn) (fuel : nat) (T : Type) `{Num T}
    (xs : list T) : outcome (list T) :=
  out <- func fuel ;;
  match shape out, data out with
  | [], [e] => Returned (gradient e xs)
  | _, _ => Raised (TypeError_grad_non_scalar (shape out))
  end.

(** [jax.jvp(g, (primals,), (tangents,))]: runs [g] on dual numbers and
    returns the primal and the tangent part of the result. *)
Definition jax_jvp (g : forall T, Num T -> list T -> outcome (list T))
    (primals tangents : list K) : outcome (list K * list K) :=
  if negb (length primals =? length tangents)
  then Raised (ValueError "jvp called with different primal and tangent shapes")
  else r <- g (dual K) _ (zip primals tangents) ;;
       Returned (map fst r, map snd r).

(** ** hessian.py *)

(** [hvp], hessian.py:10-11. *)
Definition hvp (fuel : nat) (func : traced_fn) (primals tangents : list K)
    : outcome (list K) :=
  r <- jax_jvp (jax_grad func fuel) primals tangents ;;
  Returned r.2.

(** ** hessian.py: function values, cells and calls *)

(** An array seen from inside [bdims] enclosing [jax.vmap]s (a batch
    tracer): the leading [bdims] axes of [unbatched] are hidden, the function
    under [vmap] sees the remaining ones.  [bdims = 0] is an ordinary array. *)
Record batched (T : Type) := Batched { bdims : nat; unbatched : ndarray T }.
Arguments Batched {T} bdims unbatched.
Arguments bdims {T} _.
Arguments unbatched {T} _.

Definition visible_shape {T} (x : batched T) : list nat :=
  drop (bdims x) (shape (unbatched x)).

(** The arguments that the functions of hessian.py pass around: the
    parameters (always the tracer that [jax.grad] supplies) and arrays. *)
Inductive value :=
| V_params
| V_array (x : batched K).

Definition get_array (args : gmap string value) (key : string) : outcome (batched K) :=
  v <- getitem args key ;;
  match v with
  | V_array x => Returned x
  | V_params => Raised (TypeError "array expected")
  end.

(** [laplax.types] is not part of the source files.  A [ModelFn] is what the
    caller supplies as [model_fn]: a pure function of the parameters and an
    input array; tracing it on an input records one expression per output
    entry.  hessian.py calls it as [model_fn(params, input)] and as
    [model_fn(input=input, params=params)]. *)
Definition ModelFn := ndarray K -> ndarray expr.

(** A callable loss [(output, target) -> scalar]. *)
Definition LossCallable := ndarray expr -> ndarray K -> outcome (ndarray expr).

(** Modelled from the spec: the enumeration [laplax.types.LossFn] is not part
    of the source files; hessian.py uses its members [MSE] and
    [CROSSENTROPY] (SQUARED_ERROR and CROSS_ENTROPY in the specification). *)
Inductive LossFn := MSE | CROSSENTROPY.

(** What a caller can pass as [loss_fn]: a member of the enumeration, a
    callable, [None], or any other object (one that is not callable and
    equals no member), given by its [str()]. *)
Inductive loss_spec :=
| LS_member (m : LossFn)
| LS_callable (f : LossCallable)
| LS_none
| LS_other (repr : string).

Definition loss_eq (l : loss_spec) (m : LossFn) : bool :=
  match l, m with
  | LS_member MSE, MSE => true
  | LS_member CROSSENTROPY, CROSSENTROPY => true
  | _, _ => false
  end.

Definition is_callable (l : loss_spec) : bool :=
  match l with LS_callable _ => true | _ => false end.

Definition is_none (l : loss_spec) : bool :=
  match l with LS_none => true | _ => false end.

Definition as_callable (l : loss_spec) : LossCallable :=
  match l with
  | LS_callable f => f
  | _ => fun _ _ => Raised (TypeError "object is not callable")
  end.

(** [f"{loss_fn}"]. *)
Definition loss_str (l : loss_spec) : string :=
  match l with
  | LS_member MSE => "LossFn.MSE"
  | LS_member CROSSENTROPY => "LossFn.CROSSENTROPY"
  | LS_callable _ => "<function>"
  | LS_none => "None"
  | LS_other repr => repr
  end.

(** The function bodies that hessian.py defines. *)
Inductive code :=
| Def_lifted                      (* hessian.py:22, def model_fn(params, input) *)
| Lambda_l2                       (* hessian.py:26 *)
| Lambda_l1                       (* hessian.py:30 *)
| Lambda_custom (f : LossCallable) (* hessian.py:34 *)
| Def_fallback.                   (* hessian.py:55, def model_fn(params, input, target) *)

(** A function object: the model supplied by the caller, or a closure made
    by hessian.py.  The only free name of the closures that is ever
    rebound is [model_fn]; a closure holds the cell of that name (Python
    closures capture the variable, not its value at definition time). *)
Inductive fnval :=
| Supplied (m : ModelFn)
| Closure (c : code) (cell : nat).

(** The store of cells: the local name [model_fn] of each call of
    [concatenate_model_and_loss_fn] and [create_hessian_mv_without_data]. *)
Abbreviation cells := (list fnval).

Definition load (h : cells) (c : nat) : outcome fnval :=
  match h !! c with
  | Some f => Returned f
  | None => Raised (NameError "model_fn")
  end.

(** The signatures: of the model supplied by the caller (its parameter
    names are those that hessian.py uses in its keyword calls), of the inner
    [def model_fn(params, input)], of the three lambdas and of the fallback
    [def model_fn(params, input, target)]. *)
Definition sig_model : signature :=
  {| sig_name := "model_fn"; sig_required := ["params"; "input"];
     sig_optional := []; sig_var_kw := false |}.
Definition sig_lifted : signature :=
  {| sig_name := "model_fn"; sig_required := ["params"; "input"];
     sig_optional := []; sig_var_kw := false |}.
Definition sig_lambda : signature :=
  {| sig_name := "<lambda>"; sig_required := ["params"; "input"; "target"];
     sig_optional := []; sig_var_kw := false |}.
Definition sig_fallback : signature :=
  {| sig_name := "model_fn"; sig_required := ["params"; "input"; "target"];
     sig_optional := []; sig_var_kw := false |}.

(** A supplied model under [k] enclosing [vmap]s: applied to every slice
    along the [k] hidden axes, the results stacked.  The shape of a row of
    the result is known from tracing, also for an empty batch. *)
Fixpoint batch_apply (k : nat) (m : ModelFn) (x : ndarray K) : ndarray expr :=
  match k with
  | 0 => m x
  | S k' =>
      let row := NDArray (tail (shape x)) (repeat 0%Qc (list_prod (tail (shape x)))) in
      stack (shape (batch_apply k' m row)) (map (batch_apply k' m) (rows x))
  end.

(** The error of [jax.vmap] on an argument without a leading axis. *)
Definition vmap_rank_error : exn :=
  ValueError "vmap was requested to map its argument along axis 0, which implies that its rank should be at least 1, but is only 0".

(** [jax.vmap(f, in_axes=(None, 0))(params, input)]: the mapped argument
    must have a leading axis; [f] is traced once on an argument from which
    that axis is hidden, and the axis is put back on the result. *)
Definition jax_vmap (f : list value -> outcome (batched expr))
    (params : value) (input : batched K) : outcome (batched expr) :=
  match visible_shape input with
  | [] => Raised vmap_rank_error
  | _ :: _ =>
      y <- f [params; V_array (Batched (S (bdims input)) (unbatched input))] ;;
      Returned (Batched (pred (bdims y)) (unbatched y))
  end.

(** The loss functions of the module [jax.lax].  The lambdas of
    hessian.py:26 and hessian.py:30 look up [jax.lax.l2_loss] and
    [jax.lax.l1_loss]; [jax.lax] is the module of the XLA operators and
    defines no loss function, so it has neither attribute and the lookup
    raises [AttributeError].  Python evaluates the callee of
    [jax.lax.l2_loss(...)] before the argument: the lookup is the first
    thing that a call of such a lambda does once its arguments are bound. *)
Definition jax_lax_losses : gmap string (ndarray expr -> outcome (ndarray expr)) := ∅.

Definition jax_lax_getattr (name : string)
    : outcome (ndarray expr -> outcome (ndarray expr)) :=
  match jax_lax_losses !! name with
  | Some f => Returned f
  | None => Raised (AttributeError "jax.lax" name)
  end.

(** Calling a function value.  One unit of fuel is spent per call. *)
Fixpoint call (fuel : nat) (h : cells) (f : fnval) (pos : list value)
    (kw : list (string * value)) {struct fuel} : outcome (batched expr) :=
  match fuel with
  | 0 => Unfinished
  | S fuel' =>
      match f with
      | Supplied m =>
          args <- bind_arguments sig_model pos kw ;;
          x <- get_array args "input" ;;
          Returned (Batched (bdims x) (batch_apply (bdims x) m (unbatched x)))
      | Closure Def_lifted c =>
          (* return jax.vmap(model_fn, in_axes=(None, 0))(params, input) *)
          args <- bind_arguments sig_lifted pos kw ;;
          params <- getitem args "params" ;;
          input <- get_array args "input" ;;
          model_fn <- load h c ;;
          jax_vmap (fun pos' => call fuel' h model_fn pos' []) params input
      | Closure Lambda_l2 c =>
          (* jax.lax.l2_loss(model_fn(input=input, params=params) - target) *)
          args <- bind_arguments sig_lambda pos kw ;;
          l2_loss <- jax_lax_getattr "l2_loss" ;;
          params <- getitem args "params" ;;
          input <- getitem args "input" ;;
          target <- get_array args "target" ;;
          model_fn <- load h c ;;
          out <- call fuel' h model_fn [] [("input", input); ("params", params)] ;;
          d <- array_sub (unbatched out) (unbatched target) ;;
          r <- l2_loss d ;;
          Returned (Batched 0 r)
      | Closure Lambda_l1 c =>
          (* jax.lax.l1_loss(model_fn(input=input, params=params) - target) *)
          args <- bind_arguments sig_lambda pos kw ;;
          l1_loss <- jax_lax_getattr "l1_loss" ;;
          params <- getitem args "params" ;;
          input <- getitem args "input" ;;
          target <- get_array args "target" ;;
          model_fn <- load h c ;;
          out <- call fuel' h model_fn [] [("input", input); ("params", params)] ;;
          d <- array_sub (unbatched out) (unbatched target) ;;
          r <- l1_loss d ;;
          Returned (Batched 0 r)
      | Closure (Lambda_custom loss_fn) c =>
          (* loss_fn(model_fn(input=input, params=params), target) *)
          args <- bind_arguments sig_lambda pos kw ;;
          params <- getitem args "params" ;;
          input <- getitem args "input" ;;
          target <- get_array args "target" ;;
          model_fn <- load h c ;;
          out <- call fuel' h model_fn [] [("input", input); ("params", params)] ;;
          r <- loss_fn (unbatched out) (unbatched target) ;;
          Returned (Batched 0 r)
      | Closure Def_fallback c =>
          (* del target; return model_fn(params, input) *)
          args <- bind_arguments sig_fallback pos kw ;;
          params <- getitem args "params" ;;
          input <- getitem args "input" ;;
          model_fn <- load h c ;;
          call fuel' h model_fn [params; input] []
      end
  end.

(** [concatenate_model_and_loss_fn], hessian.py:14-38.  [h] is the store
    before the call; the call gets a fresh cell for its local name
    [model_fn], initialised with the argument. *)
Definition concatenate_model_and_loss_fn (h : cells) (model_fn : fnval)
    (loss_fn : loss_spec) (has_batch : bool) : outcome (cells * fnval) :=
  let cell := length h in
  let h := h ++ [model_fn] in
  let h := if has_batch then <[cell := Closure Def_lifted cell]> h else h in
  if loss_eq loss_fn MSE then Returned (h, Closure Lambda_l2 cell)
  else if loss_eq loss_fn CROSSENTROPY then Returned (h, Closure Lambda_l1 cell)
  else if is_callable loss_fn
  then Returned (h, Closure (Lambda_custom (as_callable loss_fn)) cell)
  else Raised (ValueError ("Unknown loss function: " +:+ loss_str loss_fn +:+ ".")).

(** A data batch: a dictionary with the keys [input] and [target]. *)
Abbreviation Data := (gmap string (ndarray K)).

(** The operator [_hessian_mv(vector, data)], run with the fuel given. *)
Definition hessian_mv := nat -> list K -> Data -> outcome (list K).

(** [_hessian_mv], hessian.py:59-64; [cell] is the cell of [model_fn] in the
    frame of [create_hessian_mv_without_data]. *)
Definition _hessian_mv (h : cells) (cell : nat) (params : list K) : hessian_mv :=
  fun fuel vector data =>
    hvp fuel
      (fun fuel' =>
         (* lambda p: model_fn(params=p, input=data["input"], target=data["target"]) *)
         model_fn <- load h cell ;;
         input <- getitem data "input" ;;
         target <- getitem data "target" ;;
         out <- call fuel' h model_fn []
                 [("params", V_params);
                  ("input", V_array (Batched 0 input));
                  ("target", V_array (Batched 0 target))] ;;
         Returned (unbatched out))
      params vector.

(** [create_hessian_mv_without_data], hessian.py:41-66 (the extra keyword
    arguments are deleted on entry and are left out). *)
Definition create_hessian_mv_without_data (model_fn : ModelFn) (params : list K)
    (loss_fn : loss_spec) (has_batch : bool) : outcome hessian_mv :=
  let cell := 0 in
  let h := [Supplied model_fn] in
  h <- (if negb (is_none loss_fn)
       then r <- concatenate_model_and_loss_fn h (Supplied model_fn) loss_fn has_batch ;;
            Returned (<[cell := r.2]> r.1)
       else Returned (<[cell := Closure Def_fallback cell]> h)) ;;
  Returned (_hessian_mv h cell params).

(** [create_hessian_mv], hessian.py:69-77: the operator with the data batch
    bound. *)
Definition create_hessian_mv (model_fn : ModelFn) (params : list K) (data : Data)
    (loss_fn : loss_spec) (has_batch : bool)
    : outcome (nat -> list K -> outcome (list K)) :=
  hessian_mv <- create_hessian_mv_without_data model_fn params loss_fn has_batch ;;
  Returned (fun fuel vector => hessian_mv fuel vector data).

(** The objective called on concrete parameters:
    [objective(params, input, target)]. *)
Definition call_objective (fuel : nat) (h : cells) (objective : fnval)
    (params : list K) (input target : ndarray K) : outcome (ndarray K) :=
  out <- call fuel h objective
          [V_params; V_array (Batched 0 input); V_array (Batched 0 target)] [] ;;
  Returned (array_map (eval (env_of params)) (unbatched out)).

(** ** eval/utils.py *)

(** A data point with its leaves; an array-valued quantity during the
    tracing of the function mapped over the dataset (a function of the data
    point); a dataset (a dictionary of arrays with a common leading axis);
    the table that [jax.lax.map] returns; a prediction function (a pure
    function from an input array to a dictionary of arrays: tracing fixes
    the keys, each field is a function of the input); the [results] and the
    [aux] that the finalize functions thread. *)
Abbreviation point V := (gmap string V).
Abbreviation tracer V := (gmap string V -> V).
Abbreviation Dataset V := (gmap string (list V)).
Abbreviation table V := (gmap string (list V)).
Abbreviation PredFn V := (gmap string (V -> V)).
Abbreviation results_t V := (gmap string (gmap string V -> V)).
Abbreviation aux_t V := (option (gmap string (gmap string V -> V))).

Section Eval.
(* [V]: the arrays that belong to one data point, that is what
   [dp["input"]], [dp["target"]], a prediction field or the value of a
   metric is. *)
Context {V : Type} `{Inhabited V}.

Local Abbreviation point := (point V).
Local Abbreviation tracer := (tracer V).
Local Abbreviation Dataset := (Dataset V).
Local Abbreviation table := (table V).
Local Abbreviation PredFn := (PredFn V).
Local Abbreviation results_t := (results_t V).
Local Abbreviation aux_t := (aux_t V).

(** [pred_fn(input)] on a traced input. *)
Definition apply_pred (pred_fn : PredFn) (input : tracer) : gmap string tracer :=
  (fun g : V -> V => fun pt : point => g (input pt)) <$> pred_fn.

(** A metric: a Python function of keyword-bound arrays. *)
Record Metric := {
  metric_sig : signature;
  metric_body : gmap string V -> V
}.

(** [fn( **kwargs )].  (CPython reports the first keyword that [fn] does
    not accept in the order of the dictionary; the dictionaries here are
    unordered and the order of [map_to_list] decides which one is reported.) *)
Definition call_metric (fn : Metric) (kwargs : gmap string tracer) : outcome tracer :=
  args <- bind_arguments (metric_sig fn) [] (map_to_list kwargs) ;;
  Returned (fun pt => metric_body fn ((fun t : tracer => t pt) <$> args)).

(** A call [f(k1=.., k2=.., **kwargs)] of a function with signature [s]:
    the arguments are bound, and the function receives as its own
    [**kwargs] the keywords that are not among its parameters. *)
Definition keyword_call (s : signature) (explicit : list string)
    (kwargs : gmap string tracer) : outcome (gmap string tracer) :=
  bound <- bind_arguments s []
             (map (fun k => (k, None)) explicit ++
              map (fun kv => (kv.1, Some kv.2)) (map_to_list kwargs)) ;;
  Returned (omap id (filter (fun kv => kv.1 ∉ formals s) bound)).

(** The functions that [named_finalize_fns] and [finalize_fns] run. *)
Definition named_step :=
  results_t -> aux_t -> string -> gmap string tracer -> outcome (results_t * aux_t).
Definition step :=
  results_t -> aux_t -> gmap string tracer -> outcome (results_t * aux_t).

Definition sig_wrapper : signature :=
  {| sig_name := "wrapper"; sig_required := ["results"; "aux"; "name"];
     sig_optional := []; sig_var_kw := true |}.
Definition sig_named_finalize_fns : signature :=
  {| sig_name := "named_finalize_fns"; sig_required := ["fns"; "results"];
     sig_optional := ["aux"]; sig_var_kw := true |}.
Definition sig_finalize_fns : signature :=
  {| sig_name := "finalize_fns"; sig_required := ["fns"; "results"];
     sig_optional := ["aux"]; sig_var_kw := true |}.

(** [named_finalize_fn_wrapper], utils.py:24-46; the wrapper is called as
    [func(results=results, aux=aux, name=name, **kwargs)]. *)
Definition named_finalize_fn_wrapper (fn : Metric) : named_step :=
  fun results aux name kwargs =>
    kwargs <- keyword_call sig_wrapper ["results"; "aux"; "name"] kwargs ;;
    r <- call_metric fn kwargs ;;
    Returned (<[name := r]> results, aux).

(** [named_finalize_fns], utils.py:49-75, called as
    [named_finalize_fns(fns=.., results=.., aux=.., **kwargs)]. *)
Definition named_finalize_fns (fns : list (string * named_step))
    (results : results_t) (aux : aux_t) (kwargs : gmap string tracer)
    : outcome results_t :=
  kwargs <- keyword_call sig_named_finalize_fns ["fns"; "results"; "aux"] kwargs ;;
  st <- foldl (fun acc nf =>
               st <- acc ;;
               nf.2 st.1 st.2 nf.1 kwargs)
             (Returned (results, aux)) fns ;;
  Returned st.1.

(** [finalize_fns], utils.py:78-103. *)
Definition finalize_fns (fns : list step)
    (results : results_t) (aux : aux_t) (kwargs : gmap string tracer)
    : outcome results_t :=
  kwargs <- keyword_call sig_finalize_fns ["fns"; "results"; "aux"] kwargs ;;
  st <- foldl (fun acc func =>
               st <- acc ;;
               func st.1 st.2 kwargs)
             (Returned (results, aux)) fns ;;
  Returned st.1.

(** *** [jax.lax.map] *)

(** The common value of a non-empty list of sizes. *)
Definition common_size (what : string) (sizes : list nat) : outcome nat :=
  match sizes with
  | [] => Raised (ValueError (what +:+ " got no values to map over"))
  | n :: rest =>
      if forallb (Nat.eqb n) rest then Returned n
      else Raised (ValueError (what +:+ " got values with different leading axis sizes"))
  end.

Definition leading_sizes (xs : Dataset) : list nat :=
  map (fun kv => length kv.2) (map_to_list xs).

(** The data points of a dataset with [n] points, and the dictionary of
    tracers on which the mapped function is traced. *)
Definition points (xs : Dataset) (n : nat) : list point :=
  map (fun i => omap (fun col : list V => col !! i) xs) (seq 0 n).

Definition point_tracers (xs : Dataset) : gmap string tracer :=
  map_imap (fun k _ => Some (fun pt : point => pt !!! k)) xs.

(** [jax.lax.map(f, xs, batch_size=batch_size)].  Without a batch size the
    dataset is scanned point by point.  With one, every leaf is cut into
    [n / batch_size] full batches and a remainder; the batches are scanned,
    [f] vectorised over each, the remainder is vectorised over separately
    and the results are concatenated.  [f] is traced once, on tracers, in
    either case. *)
Definition lax_map (f : gmap string tracer -> outcome (gmap string tracer))
    (xs : Dataset) (batch_size : option nat) : outcome table :=
  match batch_size with
  | None =>
      n <- common_size "scan" (leading_sizes xs) ;;
      cols <- f (point_tracers xs) ;;
      Returned ((fun t : tracer => map t (points xs n)) <$> cols)
  | Some bs =>
      if bs =? 0 then Raised ZeroDivisionError else
      num_batches <- common_size "scan" (map (fun n => n / bs) (leading_sizes xs)) ;;
      cols <- f (point_tracers xs) ;;
      remainder <- common_size "vmap"
                    (map (fun n => n - num_batches * bs) (leading_sizes xs)) ;;
      let pts := points xs (num_batches * bs + remainder) in
      Returned ((fun t : tracer =>
                   concat (map (map t) (chunks num_batches bs pts)) ++
                   map t (drop (num_batches * bs) pts)) <$> cols)
  end.

(** [kwargs.get(k1, kwargs.get(k2))] *)
Definition kwargs_get2 (kwargs : gmap string (option nat)) (k1 k2 : string) : option nat :=
  match kwargs !! k1 with
  | Some v => v
  | None => match kwargs !! k2 with Some v => v | None => None end
  end.

(** [evaluate_on_dataset], utils.py:106-137. *)
Definition evaluate_on_dataset (pred_fn : PredFn) (data : Dataset)
    (kwargs : gmap string (option nat)) : outcome table :=
  let evaluate_data_point (dp : gmap string tracer) : outcome (gmap string tracer) :=
    (* {**pred_fn(dp["input"]), "target": dp["target"]} *)
    input <- getitem dp "input" ;;
    target <- getitem dp "target" ;;
    Returned (<["target" := target]> (apply_pred pred_fn input)) in
  lax_map evaluate_data_point data
    (kwargs_get2 kwargs "evaluate_on_dataset_batch_size" "data_batch_size").

(** [evaluate_metrics_on_dataset], utils.py:140-186. *)
Definition evaluate_metrics_on_dataset {R} (pred_fn : PredFn) (data : Dataset)
    (metrics : list (string * Metric)) (apply : list V -> R)
    (kwargs : gmap string (option nat)) : outcome (gmap string R) :=
  let metrics := map (fun nf => (nf.1, named_finalize_fn_wrapper nf.2)) metrics in
  let evaluate_data_point (dp : gmap string tracer) : outcome (gmap string tracer) :=
    input <- getitem dp "input" ;;
    target <- getitem dp "target" ;;
    let pred := <["target" := target]> (apply_pred pred_fn input) in
    named_finalize_fns metrics ∅ None pred in
  evaluated_metrics <-
    lax_map evaluate_data_point data
      (kwargs_get2 kwargs "evaluate_metrics_on_dataset_batch_size" "data_batch_size") ;;
  Returned (apply <$> evaluated_metrics).

End Eval.

(** ** Vocabulary of the statements *)

(** [alpha * v1 + beta * v2], entry by entry. *)
Definition lincomb (alpha : K) (v1 : list K) (beta : K) (v2 : list K) : list K :=
  zip_with (fun a b => (alpha * a + beta * b)%Qc) v1 v2.

(** The dual number [x] has the primal part of [x1] and of [x2], and its
    tangent is the combination of theirs. *)
Definition lin_rel (alpha beta : K) (x x1 x2 : dual K) : Prop :=
  x.1 = x1.1 /\ x.1 = x2.1 /\ x.2 = (alpha * x1.2 + beta * x2.2)%Qc.

Definition sumK (l : list K) : K := foldr Qcplus 0%Qc l.

(** Matrices are lists of rows. *)
Definition entry (A : list (list K)) (i j : nat) : K := nth j (nth i A []) 0%Qc.
Definition dot (r v : list K) : K := sumK (zip_with Qcmult r v).
Definition matvec (A : list (list K)) (v : list K) : list K :=
  map (fun r => dot r v) A.
Definition square (n : nat) (A : list (list K)) : Prop :=
  length A = n /\ Forall (fun r => length r = n) A.
Definition symmetric (A : list (list K)) : Prop :=
  forall i j, entry A i j = entry A j i.

(** What tracing [f(p) = 0.5 * p @ (A @ p)] records for an n-by-n matrix
    [A]: one half of the sum over i of p_i times the sum over j of
    A_ij * p_j. *)
Definition linear_form (n : nat) (A : list (list K)) (i : nat) : expr :=
  esum (map (fun j => Mul (Const (entry A i j)) (Var j)) (seq 0 n)).
Definition quadratic (n : nat) (A : list (list K)) : expr :=
  Mul (Const half)
      (esum (map (fun i => Mul (Var i) (linear_form n A i)) (seq 0 n))).

(** The positional and the keyword calls of an objective that occur in the
    statements and in [_hessian_mv]. *)
Definition objective_args (input target : ndarray K) : list value :=
  [V_params; V_array (Batched 0 input); V_array (Batched 0 target)].
Definition objective_kwargs (input target : ndarray K) : list (string * value) :=
  [("params", V_params); ("input", V_array (Batched 0 input));
   ("target", V_array (Batched 0 target))].

(** The attribute of [jax.lax] that the lambda of a member of the
    enumeration looks up. *)
Definition loss_attribute (m : LossFn) : string :=
  match m with
  | MSE => "l2_loss"
  | CROSSENTROPY => "l1_loss"
  end.

(** A callable loss as a caller may supply it: one half of the sum of the
    squared entries of [output - target]. *)
Definition half_squared_error : LossCallable :=
  fun out target =>
    d <- array_sub out target ;;
    Returned (scalar (Mul (Const half) (esum (map (fun e => Mul e e) (data d))))).

(** A loss selector that the composer accepts. *)
Definition valid_loss (loss_fn : loss_spec) : Prop :=
  match loss_fn with
  | LS_member _ | LS_callable _ => True
  | _ => False
  end.

(** The closure that the composer returns for an accepted selector. *)
Definition lambda_of (loss_fn : loss_spec) : code :=
  match loss_fn with
  | LS_member MSE => Lambda_l2
  | LS_member CROSSENTROPY => Lambda_l1
  | _ => Lambda_custom (as_callable loss_fn)
  end.

(** Invoking a model on each sample along the leading axis of the input
    and stacking the results. *)
Definition per_sample_stacked (m : ModelFn) (input : ndarray K) : ndarray expr :=
  batch_apply 1 m input.

(** A model with one parameter: the parameter times the sum of all entries
    of its input. *)
Definition sum_model : ModelFn :=
  fun x => scalar (Mul (Var 0) (Const (sumK (data x)))).

(** A model with one parameter that scales every entry of its input by the
    parameter. *)
Definition scaling_model : ModelFn :=
  fun x => array_map (fun c => Mul (Var 0) (Const c)) x.

(** The quadratic objective handed to [create_hessian_mv_without_data]: as
    a model that ignores its input, with a callable loss that passes the
    model output on as the objective value. *)
Definition quadratic_model (n : nat) (A : list (list K)) : ModelFn :=
  fun _ => scalar (quadratic n A).
Definition output_as_objective : LossCallable :=
  fun out _ => Returned out.

(** Every leaf of the dataset has [n] entries along its leading axis. *)
Definition uniform {V} (n : nat) (data : Dataset V) : Prop :=
  forall k col, data !! k = Some col -> length col = n.

(** The parameter names of [named_finalize_fns] and of the wrapper: a
    prediction field with one of these names clashes with an explicit
    keyword of the calls in utils.py:74 and utils.py:176. *)
Definition reserved_keywords : list string := ["fns"; "results"; "aux"; "name"].

(** One metric run on the keyword arguments and stored under its name. *)
Definition run_metric {V} (kwargs : gmap string (tracer V))
    (acc : outcome (results_t V)) (nf : string * Metric) : outcome (results_t V) :=
  results <- acc ;;
  r <- call_metric nf.2 kwargs ;;
  Returned (<[nf.1 := r]> results).

(** The prediction fields and the target of a data point, as traced by
    [evaluate_data_point]: [{**pred_fn(dp["input"]), "target": dp["target"]}]. *)
Definition traced_prediction {V} `{Inhabited V} (pred_fn : PredFn V)
    : gmap string (tracer V) :=
  <["target" := fun pt : point V => pt !!! "target"]>
    (apply_pred pred_fn (fun pt : point V => pt !!! "input")).

(** The metric accepts every keyword of [kwargs]: it ends in [**kwargs], or
    every key is one of its parameters. *)
Definition accepts {V} (fn : @Metric V) (kwargs : gmap string (tracer V)) : Prop :=
  sig_var_kw (metric_sig fn) = true \/
  forall k, kwargs !! k <> None -> k ∈ formals (metric_sig fn).

(** The named metric binds: it accepts the keywords and they cover its
    parameters without default. *)
Definition binds {V} (kwargs : gmap string (tracer V)) (nf : string * @Metric V) : Prop :=
  accepts nf.2 kwargs /\
  forall k, k ∈ sig_required (metric_sig nf.2) -> kwargs !! k <> None.

(** The parameters without default that the keywords leave unbound. *)
Definition missing_fields {V} (fn : @Metric V) (kwargs : gmap string (tracer V))
    : list string :=
  filter (fun k => kwargs !! k = None) (sig_required (metric_sig fn)).


(** Modelled from the spec: the metric [squared_error] is not part of the
    source files.  It reads one prediction field and the target and returns
    the square of their difference; whether it also accepts further keyword
    arguments is left open. *)
Definition squared_error (field : string) (var_kw : bool) : @Metric K :=
  {| metric_sig := {| sig_name := "squared_error";
                      sig_required := [field; "target"];
                      sig_optional := [];
                      sig_var_kw := var_kw |};
     metric_body := fun args =>
       ((args !!! field - args !!! "target") * (args !!! field - args !!! "target"))%Qc |}.

(** A dataset of five points, and a prediction function with the single
    field [pred_mean], twice the input. *)
Definition example_data : Dataset K :=
  <["input" := [q 1; q 2; q 3; q 4; q 5]]>
    (<["target" := [q 2; q 4; q 6; q 8; q 11]]> ∅).
Definition example_pred_fn : PredFn K :=
  {["pred_mean" := fun x => (x + x)%Qc]}.

(** The cube as a primitive with its derivatives: [x^3], [3 x^2], [6 x],
    [6], [0], ... *)
Definition cube_tower : tower := fun k x =>
  match k with
  | 0 => (x * x * x)%Qc
  | 1 => (q 3 * x * x)%Qc
  | 2 => (q 6 * x)%Qc
  | 3 => q 6
  | _ => 0%Qc
  end.

(** The derivative of the traced expression [e] at the point [p] along the
    direction [w], and its second derivative along the directions [u] and
    [v], by the rules of the calculus (the k-th derivative of a primitive is
    the next entry of its tower). *)
Fixpoint directional (p w : nat -> K) (e : expr) : K :=
  match e with
  | Var i => w i
  | Const _ => 0%Qc
  | Add a b => (directional p w a + directional p w b)%Qc
  | Sub a b => (directional p w a - directional p w b)%Qc
  | Mul a b => (directional p w a * eval p b + eval p a * directional p w b)%Qc
  | Prim d k a => (d (S k) (eval p a) * directional p w a)%Qc
  end.

Fixpoint mixed (p u v : nat -> K) (e : expr) : K :=
  match e with
  | Var _ => 0%Qc
  | Const _ => 0%Qc
  | Add a b => (mixed p u v a + mixed p u v b)%Qc
  | Sub a b => (mixed p u v a - mixed p u v b)%Qc
  | Mul a b =>
      (mixed p u v a * eval p b + directional p u a * directional p v b +
       directional p v a * directional p u b + eval p a * mixed p u v b)%Qc
  | Prim d k a =>
      (d (S (S k)) (eval p a) * directional p u a * directional p v a +
       d (S k) (eval p a) * mixed p u v a)%Qc
  end.

(** The dictionary comprehension of utils.py:171:
    [{name: named_finalize_fn_wrapper(fn) for name, fn in metrics.items()}]. *)
Definition wrap_metrics {V} `{Inhabited V} (metrics : list (string * @Metric V))
    : list (string * @named_step V) :=
  map (fun nf => (nf.1, named_finalize_fn_wrapper nf.2)) metrics.

(** What a metric that binds computes on the keyword arguments it is
    called with: its body on their values at each data point. *)
Definition metric_on {V} (fn : @Metric V) (kwargs : gmap string (tracer V)) : tracer V :=
  fun pt => metric_body fn ((fun t : tracer V => t pt) <$> kwargs).

(** A finalize function that hands on the [aux] it was given. *)
Definition keeps_aux {V} (func : @step V) : Prop :=
  forall results aux kwargs results' aux',
    func results aux kwargs = Returned (results', aux') -> aux' = aux.

(** The parameters of [named_finalize_fns] that utils.py:176 passes
    explicitly. *)
Definition explicit_keywords : list string := ["fns"; "results"; "aux"].

(** A finalize function that stores a constant under a key (an example of
    the functions that [finalize_fns] runs). *)
Definition store_constant {V} (key : string) (c : V) : @step V :=
  fun results aux _ => Returned (<[key := fun _ => c]> results, aux).

(** * Theorems *)

(** ** Facts about the numbers *)

(** Closed equations between rationals, and between values that contain
    them, by computation. *)
Ltac qc_eq :=
  match goal with
  | |- @eq Qc _ _ => apply Qc_is_canon; reflexivity
  end.
Ltac solve_concrete :=
  vm_compute; try reflexivity; repeat (first [qc_eq | progress f_equal]).

Lemma half_double : (half + half = 1)%Qc.
Proof. apply Qc_is_canon. reflexivity. Qed.

Lemma half_twice (x : K) : (half * (x + x) = x)%Qc.
Proof.
  transitivity ((half + half) * x)%Qc; [ring|].
  rewrite half_double. ring.
Qed.

(** ** Forward over reverse mode is linear in the tangent *)

Section Linearity.
Variables alpha beta : K.
Local Abbreviation lin_rel := (lin_rel alpha beta).

Lemma lin_rel_const c : lin_rel (num_const c) (num_const c) (num_const c).
Proof. repeat split; simpl; ring. Qed.

Lemma lin_rel_add x x1 x2 y y1 y2 :
  lin_rel x x1 x2 -> lin_rel y y1 y2 ->
  lin_rel (num_add x y) (num_add x1 y1) (num_add x2 y2).
Proof.
  intros (Hx1 & Hx2 & Hx) (Hy1 & Hy2 & Hy). repeat split; simpl.
  - congruence.
  - congruence.
  - rewrite Hx, Hy. ring.
Qed.

Lemma lin_rel_sub x x1 x2 y y1 y2 :
  lin_rel x x1 x2 -> lin_rel y y1 y2 ->
  lin_rel (num_sub x y) (num_sub x1 y1) (num_sub x2 y2).
Proof.
  intros (Hx1 & Hx2 & Hx) (Hy1 & Hy2 & Hy). repeat split; simpl.
  - congruence.
  - congruence.
  - rewrite Hx, Hy. ring.
Qed.

Lemma lin_rel_mul x x1 x2 y y1 y2 :
  lin_rel x x1 x2 -> lin_rel y y1 y2 ->
  lin_rel (num_mul x y) (num_mul x1 y1) (num_mul x2 y2).
Proof.
  intros (Hx1 & Hx2 & Hx) (Hy1 & Hy2 & Hy). repeat split; simpl.
  - congruence.
  - congruence.
  - rewrite Hx, Hy. rewrite <- Hx1, <- Hx2, <- Hy1, <- Hy2. ring.
Qed.

Lemma lin_rel_prim d k x x1 x2 :
  lin_rel x x1 x2 ->
  lin_rel (num_prim d k x) (num_prim d k x1) (num_prim d k x2).
Proof.
  intros (Hx1 & Hx2 & Hx). repeat split; simpl.
  - congruence.
  - congruence.
  - rewrite Hx. rewrite <- Hx1, <- Hx2. ring.
Qed.

Lemma eval_lin env env1 env2 e :
  (forall i, lin_rel (env i) (env1 i) (env2 i)) ->
  lin_rel (eval env e) (eval env1 e) (eval env2 e).
Proof.
  intros Henv. induction e; cbn [eval].
  - apply Henv.
  - apply lin_rel_const.
  - by apply lin_rel_add.
  - by apply lin_rel_sub.
  - by apply lin_rel_mul.
  - by apply lin_rel_prim.
Qed.

Lemma backprop_lin env env1 env2 e :
  (forall i, lin_rel (env i) (env1 i) (env2 i)) ->
  forall ct ct1 ct2 i, lin_rel ct ct1 ct2 ->
  lin_rel (backprop env e ct i) (backprop env1 e ct1 i) (backprop env2 e ct2 i).
Proof.
  intros Henv. induction e as [j|c|a IHa b IHb|a IHa b IHb|a IHa b IHb|d k a IHa];
    intros ct ct1 ct2 i Hct; cbn [backprop].
  - destruct (i =? j)%nat; [done | apply lin_rel_const].
  - apply lin_rel_const.
  - apply lin_rel_add; auto.
  - apply lin_rel_add; [auto|].
    apply IHb, lin_rel_sub; [apply lin_rel_const | done].
  - apply lin_rel_add.
    + apply IHa, lin_rel_mul; [done | by apply eval_lin].
    + apply IHb, lin_rel_mul; [by apply eval_lin | done].
  - apply IHa, lin_rel_mul; [done|].
    apply lin_rel_prim. by apply eval_lin.
Qed.

End Linearity.

Lemma length_lincomb alpha v1 beta v2 :
  length (lincomb alpha v1 beta v2) = min (length v1) (length v2).
Proof. apply length_zip_with. Qed.

Lemma env_of_zip_lin alpha beta (p v1 v2 : list K) i :
  length v1 = length p -> length v2 = length p ->
  lin_rel alpha beta (env_of (zip p (lincomb alpha v1 beta v2)) i)
    (env_of (zip p v1) i) (env_of (zip p v2) i).
Proof.
  intros H1 H2. unfold env_of. rewrite !nth_lookup.
  unfold lincomb. rewrite !lookup_zip_with.
  destruct (p !! i) as [x|] eqn:Hp; simpl; [|apply lin_rel_const].
  apply lookup_lt_Some in Hp.
  destruct (lookup_lt_is_Some_2 v1 i) as [a Ha]; [lia|].
  destruct (lookup_lt_is_Some_2 v2 i) as [b Hb]; [lia|].
  rewrite Ha, Hb. simpl. by repeat split.
Qed.

Lemma zip_with_map_same {A B C D} (f : B -> C -> D) (g : A -> B) (h : A -> C) l :
  zip_with f (map g l) (map h l) = map (fun a => f (g a) (h a)) l.
Proof. induction l; simpl; congruence. Qed.

Lemma gradient_tangent_linear alpha beta e (p v1 v2 : list K) :
  length v1 = length p -> length v2 = length p ->
  map snd (gradient e (zip p (lincomb alpha v1 beta v2))) =
  lincomb alpha (map snd (gradient e (zip p v1))) beta (map snd (gradient e (zip p v2))).
Proof.
  intros H1 H2. unfold gradient.
  rewrite !length_zip, length_lincomb, H1, H2, !Nat.min_id.
  rewrite !map_map. unfold lincomb at 2. rewrite zip_with_map_same.
  apply map_ext. intros i.
  apply (backprop_lin alpha beta); [|apply lin_rel_const].
  intros j. by apply env_of_zip_lin.
Qed.

Lemma hvp_lincomb fuel func (p v1 v2 : list K) (alpha beta : K) :
  length v1 = length p -> length v2 = length p ->
  hvp fuel func p (lincomb alpha v1 beta v2) =
  (r1 <- hvp fuel func p v1 ;;
   r2 <- hvp fuel func p v2 ;;
   Returned (lincomb alpha r1 beta r2)).
Proof.
  intros H1 H2. unfold hvp, jax_jvp.
  rewrite length_lincomb, H1, H2, Nat.min_id, Nat.eqb_refl. simpl.
  unfold jax_grad. destruct (func fuel) as [out| |]; simpl; [|done..].
  destruct out as [[|n s] [|e [|e' es]]]; simpl; try done.
  f_equal. by apply gradient_tangent_linear.
Qed.

(** C2. [hvp] is linear in its direction argument: for every objective,
    every parameter point and all directions [v1], [v2] of the shape of the
    parameters, [hvp] at [alpha * v1 + beta * v2] is [alpha] times [hvp] at
    [v1] plus [beta] times [hvp] at [v2]; when the objective cannot be
    differentiated the same failure is reported on both sides.  The same
    holds for the operator [_hessian_mv] on every data batch. *)
Theorem hvp_linear fuel (p v1 v2 : list K) (alpha beta : K) :
  length v1 = length p -> length v2 = length p ->
  (forall func,
     hvp fuel func p (lincomb alpha v1 beta v2) =
     (r1 <- hvp fuel func p v1 ;;
      r2 <- hvp fuel func p v2 ;;
      Returned (lincomb alpha r1 beta r2))) /\
  (forall h cell data,
     _hessian_mv h cell p fuel (lincomb alpha v1 beta v2) data =
     (r1 <- _hessian_mv h cell p fuel v1 data ;;
      r2 <- _hessian_mv h cell p fuel v2 data ;;
      Returned (lincomb alpha r1 beta r2))).
Proof.
  intros H1 H2. split.
  - intros func. by apply hvp_lincomb.
  - intros h cell data. unfold _hessian_mv. by apply hvp_lincomb.
Qed.

(** The engine on a primitive: the objective [p0^3 + p0 * p1] at the point
    [(2, 5)] has the Hessian [[12, 1], [1, 0]]; along [(1, 0)] and [(0, 1)]
    [hvp] returns its columns. *)
Example hvp_cube_plus_product :
  let f : traced_fn :=
    fun _ => Returned (scalar (Add (Prim cube_tower 0 (Var 0)) (Mul (Var 0) (Var 1)))) in
  hvp 0 f [q 2; q 5] [q 1; q 0] = Returned [q 12; q 1] /\
  hvp 0 f [q 2; q 5] [q 0; q 1] = Returned [q 1; q 0].
Proof. split; solve_concrete. Qed.

(** ** The quadratic objective *)

Lemma sumK_map_add {A} (f g : A -> K) l :
  sumK (map (fun a => (f a + g a)%Qc) l) = (sumK (map f l) + sumK (map g l))%Qc.
Proof. induction l; simpl; [ring | rewrite IHl; ring]. Qed.

Lemma sumK_map_scale {A} c (f : A -> K) l :
  sumK (map (fun a => (c * f a)%Qc) l) = (c * sumK (map f l))%Qc.
Proof. induction l; simpl; [ring | rewrite IHl; ring]. Qed.

(** A sum that selects the single index [k]. *)
Lemma sumK_select (f : nat -> K) k s n :
  sumK (map (fun i => if (k =? i)%nat then f i else 0%Qc) (seq s n)) =
  if bool_decide (s <= k < s + n)%nat then f k else 0%Qc.
Proof.
  revert s. induction n as [|n IH]; intros s; simpl.
  - rewrite bool_decide_eq_false_2; [done | lia].
  - rewrite IH. destruct (Nat.eqb_spec k s) as [->|Hne].
    + rewrite bool_decide_eq_false_2 by lia.
      rewrite bool_decide_eq_true_2 by lia. ring.
    + destruct (bool_decide (S s <= k < S s + n)%nat) eqn:Hb.
      * apply bool_decide_eq_true_1 in Hb.
        rewrite bool_decide_eq_true_2 by lia. ring.
      * apply bool_decide_eq_false_1 in Hb.
        rewrite bool_decide_eq_false_2 by lia. ring.
Qed.

Lemma eval_esum_tangent (env : nat -> dual K) es :
  (eval env (esum es)).2 = sumK (map (fun e => (eval env e).2) es).
Proof. induction es; simpl; [done | by rewrite <- IHes]. Qed.

Lemma backprop_esum_tangent (env : nat -> dual K) es ct k :
  (backprop env (esum es) ct k).2 =
  sumK (map (fun e => (backprop env e ct k).2) es).
Proof. induction es; simpl; [done | by rewrite <- IHes]. Qed.

Section Quadratic.
Variables (n : nat) (A : list (list K)) (env : nat -> dual K).

(** The matrix-vector product of [A] with the tangents, at row [i]. *)
Local Abbreviation row_times_tangent i :=
  (sumK (map (fun j => (entry A i j * (env j).2)%Qc) (seq 0 n))).

Lemma linear_form_tangent i :
  (eval env (linear_form n A i)).2 = row_times_tangent i.
Proof.
  unfold linear_form. rewrite eval_esum_tangent, map_map.
  f_equal. apply map_ext. intros j. simpl. ring.
Qed.

Lemma linear_form_backprop_tangent i ct k :
  (k < n)%nat ->
  (backprop env (linear_form n A i) ct k).2 = (entry A i k * ct.2)%Qc.
Proof.
  intros Hk. unfold linear_form. rewrite backprop_esum_tangent, map_map.
  transitivity (sumK (map (fun j =>
    if (k =? j)%nat then (entry A i j * ct.2)%Qc else 0%Qc) (seq 0 n))).
  - f_equal. apply map_ext. intros j. simpl.
    destruct (k =? j)%nat; simpl; ring.
  - rewrite sumK_select. rewrite bool_decide_eq_true_2 by lia. done.
Qed.

Lemma row_backprop_tangent i ct k :
  (k < n)%nat -> ct.2 = 0%Qc ->
  (backprop env (Mul (Var i) (linear_form n A i)) ct k).2 =
  ((if (k =? i)%nat then ct.1 * row_times_tangent i else 0) +
   ct.1 * (entry A i k * (env i).2))%Qc.
Proof.
  intros Hk Hct. cbn [backprop eval].
  change ((num_add ?x ?y).2) with (x.2 + y.2)%Qc.
  rewrite linear_form_backprop_tangent by done.
  destruct (k =? i)%nat; simpl; rewrite ?linear_form_tangent, Hct; ring.
Qed.

Lemma quadratic_backprop_tangent k :
  (k < n)%nat ->
  (backprop env (quadratic n A) (num_const 1%Qc) k).2 =
  (half * (row_times_tangent k +
           sumK (map (fun i => (entry A i k * (env i).2)%Qc) (seq 0 n))))%Qc.
Proof.
  intros Hk. unfold quadratic. cbn [backprop eval].
  change ((num_add ?x ?y).2) with (x.2 + y.2)%Qc.
  rewrite backprop_esum_tangent, map_map.
  erewrite map_ext; [|intros i; apply row_backprop_tangent; [done | simpl; ring]].
  rewrite sumK_map_add, sumK_map_scale.
  rewrite (sumK_select (fun i => (_ * row_times_tangent i)%Qc)).
  rewrite bool_decide_eq_true_2 by lia. simpl. ring.
Qed.

End Quadratic.

Lemma map_seq_shift {B} (f : nat -> B) s n :
  map f (seq (S s) n) = map (fun i => f (S i)) (seq s n).
Proof. by rewrite <- seq_shift, map_map. Qed.

Lemma list_as_map_nth {B} (d : B) (l : list B) :
  l = map (fun k => nth k l d) (seq 0 (length l)).
Proof.
  induction l as [|x l IH]; simpl; [done|].
  f_equal. rewrite map_seq_shift. exact IH.
Qed.

Lemma zip_with_index {B C D} (f : B -> C -> D) (b : B) (c : C) l1 l2 :
  length l2 = length l1 ->
  zip_with f l1 l2 = map (fun j => f (nth j l1 b) (nth j l2 c)) (seq 0 (length l1)).
Proof.
  revert l2. induction l1 as [|x l1 IH]; intros [|y l2] Hlen; simpl in *; try done.
  f_equal. rewrite map_seq_shift. apply IH. lia.
Qed.

Lemma dot_index r v :
  length v = length r ->
  dot r v = sumK (map (fun j => (nth j r 0 * nth j v 0)%Qc) (seq 0 (length r))).
Proof. intros H. unfold dot. by rewrite (zip_with_index _ 0%Qc 0%Qc). Qed.

Lemma matvec_index n A v :
  square n A -> length v = n ->
  matvec A v =
  map (fun k => sumK (map (fun j => (entry A k j * nth j v 0)%Qc) (seq 0 n))) (seq 0 n).
Proof.
  intros [HA Hrows] Hv. unfold matvec.
  rewrite (list_as_map_nth [] A) at 1. rewrite map_map, HA.
  apply map_ext_in. intros k Hk. apply in_seq in Hk.
  assert (Hr : length (nth k A []) = n).
  { rewrite Forall_forall in Hrows. apply Hrows.
    apply list_elem_of_In, nth_In. lia. }
  rewrite dot_index by lia. by rewrite Hr.
Qed.

Lemma env_of_zip (p v : list K) j :
  length v = length p ->
  env_of (zip p v) j = (nth j p 0%Qc, nth j v 0%Qc).
Proof.
  intros H. unfold env_of. rewrite !nth_lookup, lookup_zip_with.
  destruct (p !! j) as [x|] eqn:Hp; simpl.
  - apply lookup_lt_Some in Hp.
    destruct (lookup_lt_is_Some_2 v j) as [a Ha]; [lia|]. by rewrite Ha.
  - apply lookup_ge_None in Hp. rewrite (lookup_ge_None_2 v j) by lia. done.
Qed.

(** Forward over reverse mode on the quadratic objective is multiplication
    by the matrix. *)
Lemma gradient_tangent_quadratic n A (p v : list K) :
  square n A -> symmetric A -> length p = n -> length v = n ->
  map snd (gradient (quadratic n A) (zip p v)) = matvec A v.
Proof.
  intros HA Hsym Hp Hv. rewrite (matvec_index n) by done.
  unfold gradient. rewrite map_map, length_zip, Hp, Hv, Nat.min_id.
  apply map_ext_in. intros k Hk. apply in_seq in Hk.
  rewrite quadratic_backprop_tangent by lia.
  erewrite (map_ext (fun i => (entry A i k * _)%Qc));
    [|intros i; rewrite (Hsym i k); reflexivity].
  rewrite half_twice.
  f_equal. apply map_ext. intros j. rewrite env_of_zip by lia. done.
Qed.

(** ** Calls of the function values of hessian.py *)

Section Calls.
Variables (fuel : nat) (h : cells) (c : nat).

Lemma call_supplied_kw m p x :
  call (S fuel) h (Supplied m) [] [("input", V_array x); ("params", p)] =
  Returned (Batched (bdims x) (batch_apply (bdims x) m (unbatched x))).
Proof. reflexivity. Qed.

Lemma call_lifted_kw p x :
  call (S fuel) h (Closure Def_lifted c) [] [("input", V_array x); ("params", p)] =
  (model_fn <- load h c ;;
   jax_vmap (fun pos => call fuel h model_fn pos []) p x).
Proof. reflexivity. Qed.

Lemma call_lifted_pos p x :
  call (S fuel) h (Closure Def_lifted c) [p; V_array x] [] =
  (model_fn <- load h c ;;
   jax_vmap (fun pos => call fuel h model_fn pos []) p x).
Proof. reflexivity. Qed.

Lemma call_fallback_kw p x t :
  call (S fuel) h (Closure Def_fallback c) []
    [("params", p); ("input", x); ("target", t)] =
  (model_fn <- load h c ;; call fuel h model_fn [p; x] []).
Proof. reflexivity. Qed.

Lemma call_fallback_pos p x :
  call (S fuel) h (Closure Def_fallback c) [p; x] [] =
  Raised (TypeError_missing_arguments "model_fn" ["target"]).
Proof. reflexivity. Qed.

(** The lambda of a member of the enumeration: once the arguments are
    bound, the lookup of the loss in [jax.lax] fails. *)
Lemma call_member_pos m p x t :
  call (S fuel) h (Closure (lambda_of (LS_member m)) c) [p; x; t] [] =
  Raised (AttributeError "jax.lax" (loss_attribute m)).
Proof. by destruct m. Qed.

Lemma call_member_kw m p x t :
  call (S fuel) h (Closure (lambda_of (LS_member m)) c) []
    [("params", p); ("input", x); ("target", t)] =
  Raised (AttributeError "jax.lax" (loss_attribute m)).
Proof. by destruct m. Qed.

(** The lambda of a callable loss: the function in the cell is called by
    keyword and the loss is applied to its output. *)
Lemma call_custom_pos (loss : LossCallable) p x t :
  call (S fuel) h (Closure (Lambda_custom loss) c) [p; x; V_array t] [] =
  (model_fn <- load h c ;;
   out <- call fuel h model_fn [] [("input", x); ("params", p)] ;;
   r <- loss (unbatched out) (unbatched t) ;;
   Returned (Batched 0 r)).
Proof. reflexivity. Qed.

(** Keyword and positional calls of the lambdas bind the same way. *)
Lemma call_lambda_kw loss_fn p x t :
  call (S fuel) h (Closure (lambda_of loss_fn) c) []
    [("params", p); ("input", x); ("target", V_array t)] =
  call (S fuel) h (Closure (lambda_of loss_fn) c) [p; x; V_array t] [].
Proof. destruct loss_fn as [[]|f| |]; reflexivity. Qed.

End Calls.

(** ** The composer *)

Lemma concatenate_valid h0 f loss_fn has_batch :
  valid_loss loss_fn ->
  concatenate_model_and_loss_fn h0 f loss_fn has_batch =
  Returned (if has_batch
            then <[length h0 := Closure Def_lifted (length h0)]> (h0 ++ [f])
            else h0 ++ [f],
            Closure (lambda_of loss_fn) (length h0)).
Proof. by destruct loss_fn as [[]|g| |]. Qed.

(** C5. A loss selector that is neither a member of the enumeration nor a
    callable is rejected when the objective is composed: the composer
    raises the error (a [ValueError]) whose message contains the offending
    value, and so does [create_hessian_mv_without_data] for every selector
    other than [None]; no objective and no operator is returned, and no data
    batch is involved. *)
Theorem unknown_loss_rejected_at_composition h0 f loss_fn has_batch :
  (forall m, loss_fn <> LS_member m) ->
  (forall g, loss_fn <> LS_callable g) ->
  concatenate_model_and_loss_fn h0 f loss_fn has_batch =
    Raised (ValueError ("Unknown loss function: " +:+ loss_str loss_fn +:+ "."))
  /\ (loss_fn <> LS_none ->
      forall model_fn params,
      create_hessian_mv_without_data model_fn params loss_fn has_batch =
        Raised (ValueError ("Unknown loss function: " +:+ loss_str loss_fn +:+ "."))).
Proof.
  intros Hm Hc. destruct loss_fn as [m|g| |repr].
  - by destruct (Hm m).
  - by destruct (Hc g).
  - split; [reflexivity | done].
  - split; [reflexivity | intros _ model_fn params; reflexivity].
Qed.

Lemma unknown_loss_rejected_witness :
  concatenate_model_and_loss_fn [] (Supplied (fun x => array_map Const x))
    (LS_other "huber") false =
  Raised (ValueError "Unknown loss function: huber.").
Proof.
  apply (unknown_loss_rejected_at_composition [] _ (LS_other "huber") false);
    intros ?; discriminate.
Defined.

(** ** The lifted model function under [has_batch=True] *)

Ltac leb_cases :=
  repeat match goal with
         | |- context [?a <=? ?b] => destruct (Nat.leb_spec a b)
         end;
  try lia; try reflexivity.

Lemma visible_shape_hide {T} b (u : ndarray T) :
  visible_shape (Batched (S b) u) = tail (visible_shape (Batched b u)).
Proof.
  unfold visible_shape; simpl. generalize (shape u). clear.
  induction b as [|b IH]; intros [|n s]; simpl; done.
Qed.

(** The inner [def model_fn] in a store where its own cell holds it: each
    call strips one axis and calls the same function again, until no axis
    is left. *)
Lemma lifted_recursion h c p :
  load h c = Returned (Closure Def_lifted c) ->
  forall fuel x,
  call fuel h (Closure Def_lifted c) [p; V_array x] [] =
  if length (visible_shape x) + 1 <=? fuel then Raised vmap_rank_error else Unfinished.
Proof.
  intros Hload. induction fuel as [|fuel IH]; intros [b u];
    [by rewrite Nat.add_1_r|].
  rewrite call_lifted_pos, Hload. cbn [bind_outcome]. unfold jax_vmap.
  destruct (visible_shape (Batched b u)) as [|n s] eqn:Hs; [done|].
  cbn [bdims unbatched]. rewrite IH, visible_shape_hide, Hs. cbn [tail length].
  leb_cases.
Qed.

Lemma load_lifted h0 f :
  load (<[length h0 := Closure Def_lifted (length h0)]> (h0 ++ [f])) (length h0) =
  Returned (Closure Def_lifted (length h0)).
Proof.
  unfold load. rewrite list_lookup_insert_eq; [done|].
  rewrite length_app. simpl. lia.
Qed.

(** A lambda of a callable loss over a cell that holds the inner
    [def model_fn]: the call fails when the axes of the input are used up. *)
Lemma lambda_over_lifted h c (loss : LossCallable) input target fuel :
  load h c = Returned (Closure Def_lifted c) ->
  call fuel h (Closure (Lambda_custom loss) c) (objective_args input target) [] =
  if length (shape input) + 2 <=? fuel then Raised vmap_rank_error else Unfinished.
Proof.
  intros Hload. destruct fuel as [|fuel]; [by rewrite Nat.add_comm|].
  unfold objective_args. rewrite call_custom_pos, Hload. cbn [bind_outcome].
  destruct fuel as [|fuel]; [by rewrite Nat.add_comm|].
  rewrite call_lifted_kw, <- call_lifted_pos.
  rewrite lifted_recursion by done.
  unfold visible_shape. cbn [bdims unbatched]. rewrite drop_0.
  leb_cases.
Qed.

(** C9 (as amended).  With [has_batch=True] the inner [def model_fn]
    rebinds the name, so the function that [jax.vmap] maps is the inner
    function itself and the model supplied by the caller is never called.
    For a callable loss, every call of the returned objective, positional
    or by keyword, fails: the self-call strips one leading axis of the input
    per level and, when the axes are used up (after as many nested
    self-calls as the input has axes), [jax.vmap] raises.  No call returns a
    value, whatever the model, the callable loss, the input and the
    target. *)
Theorem lifted_objective_always_raises h0 f (loss : LossCallable) input target fuel :
  exists h objective,
    concatenate_model_and_loss_fn h0 f (LS_callable loss) true = Returned (h, objective) /\
    call fuel h objective (objective_args input target) [] =
      (if length (shape input) + 2 <=? fuel
       then Raised vmap_rank_error else Unfinished) /\
    call fuel h objective [] (objective_kwargs input target) =
      (if length (shape input) + 2 <=? fuel
       then Raised vmap_rank_error else Unfinished).
Proof.
  eexists _, _. split; [reflexivity|].
  cbn [as_callable].
  pose proof (lambda_over_lifted
                (<[length h0 := Closure Def_lifted (length h0)]> (h0 ++ [f]))
                (length h0) loss input target fuel (load_lifted h0 f)) as Hpos.
  split; [exact Hpos|].
  rewrite <- Hpos. destruct fuel as [|fuel]; [done|].
  unfold objective_kwargs, objective_args.
  apply (call_lambda_kw fuel _ _ (LS_callable loss)).
Qed.

Lemma lifted_objective_always_raises_witness :
  exists h objective,
    concatenate_model_and_loss_fn [] (Supplied (fun x => array_map Const x))
      (LS_callable half_squared_error) true = Returned (h, objective) /\
    call 3 h objective
      (objective_args (vector [q 1; q 2]) (vector [q 1; q 2])) [] =
    Raised vmap_rank_error.
Proof.
  destruct (lifted_objective_always_raises [] (Supplied (fun x => array_map Const x))
              half_squared_error (vector [q 1; q 2]) (vector [q 1; q 2]) 3)
    as (h & objective & Hc & Hcall & _).
  by exists h, objective.
Defined.

(** C9, counterexample: a call of the objective composed with
    [has_batch=True] and a callable loss, on a 2-by-2 input, with fuel for
    four calls (of the objective and three of the inner function): it has
    terminated, by raising. *)
Lemma lifted_objective_terminates :
  (r <- concatenate_model_and_loss_fn [] (Supplied (fun x => array_map Const x))
          (LS_callable half_squared_error) true ;;
   call 4 r.1 r.2
     (objective_args (NDArray [2; 2] [q 1; q 2; q 3; q 4]) (vector [q 1; q 2])) [])
  = Raised vmap_rank_error.
Proof. reflexivity. Qed.

(** ** The fallback wrapper under [loss_fn=None] *)

Lemma fallback_traced model_fn (data : Data) fuel :
  (model_fn' <- load (<[0 := Closure Def_fallback 0]> [Supplied model_fn]) 0 ;;
   input <- getitem data "input" ;;
   target <- getitem data "target" ;;
   out <- call fuel (<[0 := Closure Def_fallback 0]> [Supplied model_fn]) model_fn' []
           (objective_kwargs input target) ;;
   Returned (unbatched out)) =
  match data !! "input", data !! "target" with
  | None, _ => Raised (KeyError "input")
  | Some _, None => Raised (KeyError "target")
  | Some _, Some _ =>
      if 2 <=? fuel
      then Raised (TypeError_missing_arguments "model_fn" ["target"])
      else Unfinished
  end.
Proof.
  unfold getitem. cbn [load lookup list_lookup insert list_insert bind_outcome].
  destruct (data !! "input") as [input|]; [|done].
  destruct (data !! "target") as [target|]; [|done]. cbn [bind_outcome].
  destruct fuel as [|fuel]; [reflexivity|].
  unfold objective_kwargs. rewrite call_fallback_kw.
  change (load _ 0) with (Returned (Closure Def_fallback 0)). cbn [bind_outcome].
  destruct fuel as [|fuel]; [reflexivity|].
  by rewrite call_fallback_pos.
Qed.

(** C10 (as amended).  With [loss_fn=None] the fallback wrapper
    [def model_fn(params, input, target)] rebinds the name, so its body
    calls the wrapper itself, with two positional arguments, and never the
    model supplied by the caller.  The wrapper takes three parameters: the
    self-call fails at once with a [TypeError] for the missing argument
    [target].  Applying the returned operator never returns a curvature
    vector; on a direction of the shape of the parameters and a data batch
    with [input] and [target] it raises that [TypeError]. *)
Theorem fallback_operator_never_returns model_fn params has_batch :
  exists op,
    create_hessian_mv_without_data model_fn params LS_none has_batch =
      Returned op /\
    (forall fuel vector data r, op fuel vector data <> Returned r) /\
    (forall fuel vector (data : Data) input target,
       length vector = length params ->
       data !! "input" = Some input -> data !! "target" = Some target ->
       2 <= fuel ->
       op fuel vector data =
         Raised (TypeError_missing_arguments "model_fn" ["target"])).
Proof.
  eexists. split; [reflexivity|].
  assert (Hop : forall fuel vector (data : Data),
    _hessian_mv (<[0 := Closure Def_fallback 0]> [Supplied model_fn]) 0 params
      fuel vector data =
    if negb (length params =? length vector)
    then Raised (ValueError "jvp called with different primal and tangent shapes")
    else match data !! "input", data !! "target" with
         | None, _ => Raised (KeyError "input")
         | Some _, None => Raised (KeyError "target")
         | Some _, Some _ =>
             if 2 <=? fuel
             then Raised (TypeError_missing_arguments "model_fn" ["target"])
             else Unfinished
         end).
  { intros fuel vector data. unfold _hessian_mv, hvp, jax_jvp.
    destruct (negb (length params =? length vector)); [done|].
    unfold jax_grad.
    pose proof (fallback_traced model_fn data fuel) as Ht.
    unfold objective_kwargs in Ht. cbn [load lookup list_lookup insert list_insert] in Ht |- *.
    rewrite Ht.
    destruct (data !! "input"), (data !! "target"); try done.
    by destruct (2 <=? fuel). }
  split.
  - intros fuel vector data r. cbn [bind_outcome]. rewrite Hop.
    destruct (negb _); [done|].
    destruct (data !! "input"), (data !! "target"); try done.
    by destruct (2 <=? fuel).
  - intros fuel vector data input target Hlen Hin Htg Hfuel.
    cbn [bind_outcome]. rewrite Hop, Hin, Htg, Hlen, Nat.eqb_refl. cbn [negb].
    by rewrite (proj2 (Nat.leb_le 2 fuel) Hfuel).
Qed.

Lemma fallback_operator_never_returns_witness :
  exists op,
    create_hessian_mv_without_data (fun x => array_map Const x) [q 1] LS_none false =
      Returned op /\
    op 2 [q 1] (<["input" := vector [q 1]]> (<["target" := vector [q 1]]> ∅)) =
      Raised (TypeError_missing_arguments "model_fn" ["target"]).
Proof.
  destruct (fallback_operator_never_returns (fun x => array_map Const x) [q 1] false)
    as (op & Hop & _ & Hraise).
  exists op. split; [exact Hop|].
  apply (Hraise 2 [q 1] _ (vector [q 1]) (vector [q 1]));
    [reflexivity | reflexivity | reflexivity | lia].
Defined.

(** C10, counterexample: the operator built with [loss_fn=None], applied
    with fuel for two calls only, has already terminated (with the
    [TypeError] of the self-call); it does not recurse further. *)
Lemma fallback_operator_terminates :
  (op <- create_hessian_mv_without_data (fun x => array_map Const x) [q 1; q 2]
           LS_none false ;;
   op 2 [q 3; q 4]
     (<["input" := vector [q 1]]> (<["target" := vector [q 1]]> ∅)))
  = Raised (TypeError_missing_arguments "model_fn" ["target"]).
Proof. reflexivity. Qed.

(** ** Arrays: chunks and broadcasting *)

Lemma chunks_map {A B} (f : A -> B) n len l :
  chunks n len (map f l) = map (map f) (chunks n len l).
Proof.
  revert l. induction n as [|n IH]; intros l; simpl; [done|].
  change (map f l) with (f <$> l).
  rewrite <- fmap_take, <- fmap_drop. f_equal. apply IH.
Qed.

Lemma concat_chunks {A} n len (l : list A) :
  length l = n * len -> concat (chunks n len l) = l.
Proof.
  revert l. induction n as [|n IH]; intros l Hl; simpl in *.
  - by destruct l.
  - rewrite IH; [apply take_drop|]. rewrite length_drop. lia.
Qed.

Lemma chunks_length {A} n len (l : list A) :
  length l = n * len -> Forall (fun c => length c = len) (chunks n len l).
Proof.
  revert l. induction n as [|n IH]; intros l Hl; simpl in *; constructor.
  - rewrite length_take. lia.
  - apply IH. rewrite length_drop. lia.
Qed.

Lemma concat_repeat_map {A B} (f : A -> B) (l : list A) n :
  concat (repeat (map f l) n) = map f (concat (repeat l n)).
Proof. induction n as [|n IH]; simpl; [done|]. by rewrite IH, map_app. Qed.

Lemma broadcast_data_map {A B} (f : A -> B) src dst l :
  broadcast_data src dst (map f l) = map f (broadcast_data src dst l).
Proof.
  revert dst l. induction src as [|a src IH]; intros [|b dst] l; simpl; try done.
  destruct (a =? b).
  - rewrite chunks_map, map_map.
    rewrite (map_ext _ (fun c => map f (broadcast_data src dst c))) by (intros; apply IH).
    rewrite <- (map_map (broadcast_data src dst) (map f)).
    symmetry. apply concat_map.
  - rewrite IH. apply concat_repeat_map.
Qed.

Lemma broadcast_data_same {A} s (l : list A) :
  length l = list_prod s -> broadcast_data s s l = l.
Proof.
  revert l. induction s as [|a s IH]; intros l Hl; simpl in *; [done|].
  rewrite Nat.eqb_refl.
  pose proof (chunks_length a (list_prod s) l Hl) as Hc.
  rewrite <- (concat_chunks a (list_prod s) l Hl) at 2.
  f_equal. induction Hc as [|c cs Hlen _ IHc]; simpl; [done|].
  by rewrite IH, IHc.
Qed.

Lemma broadcast_shapes_rev_same r : broadcast_shapes_rev r r = Some r.
Proof.
  induction r as [|a r IH]; simpl; [done|].
  by rewrite IH, Nat.eqb_refl.
Qed.

Lemma broadcast_shapes_same s : broadcast_shapes s s = Some s.
Proof.
  unfold broadcast_shapes. rewrite broadcast_shapes_rev_same. simpl.
  by rewrite rev_involutive.
Qed.

Lemma pad_shape_same s : pad_shape (length s) s = s.
Proof. unfold pad_shape. by rewrite Nat.sub_diag. Qed.

(** Entry-by-entry operations on arrays of one shape need no broadcasting. *)
Lemma elementwise_same_shape {T} (f : T -> T -> T) (a b : ndarray T) :
  shape a = shape b -> well_shaped a -> well_shaped b ->
  elementwise f a b = Returned (NDArray (shape a) (zip_with f (data a) (data b))).
Proof.
  intros Hs Ha Hb. unfold elementwise, broadcast_to.
  rewrite <- Hs, broadcast_shapes_same, pad_shape_same.
  rewrite !broadcast_data_same; [done | by rewrite Hs | done].
Qed.

Lemma zip_with_map_l {A A' B C} (f : A' -> B -> C) (g : A -> A') l k :
  zip_with f (map g l) k = zip_with (fun a b => f (g a) b) l k.
Proof. revert k. induction l; intros [|? ?]; simpl; congruence. Qed.

Lemma zip_with_map_r {A B B' C} (f : A -> B' -> C) (h : B -> B') l k :
  zip_with f l (map h k) = zip_with (fun a b => f a (h b)) l k.
Proof. revert k. induction l; intros [|? ?]; simpl; congruence. Qed.

Lemma map_zip_with_out {A B C D} (g : C -> D) (f : A -> B -> C) l k :
  map g (zip_with f l k) = zip_with (fun a b => g (f a b)) l k.
Proof. revert k. induction l; intros [|? ?]; simpl; congruence. Qed.

(** Evaluating a traced difference is the difference of the values. *)
Lemma eval_array_sub (env : nat -> K) (a : ndarray expr) (b : ndarray K) :
  (d <- array_sub a b ;; Returned (array_map (eval env) d)) =
  elementwise Qcminus (array_map (eval env) a) b.
Proof.
  unfold array_sub, elementwise, broadcast_to, array_map. cbn [shape data].
  destruct (broadcast_shapes (shape a) (shape b)) as [s|]; [|done].
  cbn [bind_outcome shape data]. do 2 f_equal.
  rewrite !broadcast_data_map, map_zip_with_out.
  by rewrite zip_with_map_r, zip_with_map_l.
Qed.

Lemma eval_esum (env : nat -> K) es :
  eval env (esum es) = sumK (map (eval env) es).
Proof. induction es; simpl; [done | by rewrite <- IHes]. Qed.

(** The callable loss [half_squared_error] on concrete parameters: one
    half of the sum of the squares of the entries of [output - target]. *)
Lemma eval_half_squared_error (env : nat -> K) (out : ndarray expr) (target : ndarray K) :
  (r <- half_squared_error out target ;; Returned (array_map (eval env) r)) =
  (d <- elementwise Qcminus (array_map (eval env) out) target ;;
   Returned (scalar (half * sumK (map (fun x => x * x) (data d)))%Qc)).
Proof.
  unfold half_squared_error. rewrite <- eval_array_sub.
  destruct (array_sub out target) as [d| |]; cbn [bind_outcome]; [|done..].
  unfold scalar, array_map. cbn [shape data map eval].
  rewrite eval_esum, !map_map. reflexivity.
Qed.

(** ** The composed objective under [has_batch=False] *)

Lemma load_supplied h0 f : load (h0 ++ [f]) (length h0) = Returned f.
Proof. unfold load. by rewrite list_lookup_middle. Qed.

Lemma unlifted_objective_call h0 m (loss : LossCallable) input target fuel :
  2 <= fuel ->
  call fuel (h0 ++ [Supplied m]) (Closure (Lambda_custom loss) (length h0))
    (objective_args input target) [] =
  (r <- loss (m input) target ;; Returned (Batched 0 r)).
Proof.
  intros Hfuel. destruct fuel as [|[|fuel]]; [lia..|].
  unfold objective_args. rewrite call_custom_pos, load_supplied. cbn [bind_outcome].
  by rewrite call_supplied_kw.
Qed.

(** C3 (as amended).  With [has_batch=False] the composer does not lift
    [model_fn]: for a callable loss, the composed objective calls
    [model_fn] once, on the whole input, and applies the loss to what it
    returns.  It agrees with applying [model_fn] to every sample and
    stacking the results when [model_fn] itself maps a batch row by row. *)
Theorem unlifted_objective_applies_model_once h0 m (loss : LossCallable)
    input target fuel :
  2 <= fuel ->
  exists h objective,
    concatenate_model_and_loss_fn h0 (Supplied m) (LS_callable loss) false =
      Returned (h, objective) /\
    call fuel h objective (objective_args input target) [] =
      (r <- loss (m input) target ;; Returned (Batched 0 r)) /\
    (m input = per_sample_stacked m input ->
     call fuel h objective (objective_args input target) [] =
       (r <- loss (per_sample_stacked m input) target ;;
        Returned (Batched 0 r))).
Proof.
  intros Hfuel. eexists _, _. split; [reflexivity|].
  cbn [as_callable]. rewrite unlifted_objective_call by done. split; [done|].
  by intros <-.
Qed.

Lemma unlifted_objective_applies_model_once_witness :
  exists h objective,
    concatenate_model_and_loss_fn [] (Supplied sum_model)
      (LS_callable half_squared_error) false = Returned (h, objective) /\
    call 2 h objective
      (objective_args (NDArray [2; 2] [q 1; q 2; q 3; q 4]) (vector [q 3; q 7])) [] =
      (r <- half_squared_error
              (sum_model (NDArray [2; 2] [q 1; q 2; q 3; q 4])) (vector [q 3; q 7]) ;;
       Returned (Batched 0 r)).
Proof.
  destruct (unlifted_objective_applies_model_once [] sum_model half_squared_error
              (NDArray [2; 2] [q 1; q 2; q 3; q 4]) (vector [q 3; q 7]) 2)
    as (h & objective & Hc & Hcall & _); [lia|].
  by exists h, objective.
Defined.

(** C3, counterexample: a model that sums the entries of its input, a batch
    of two samples [1, 2] and [3, 4] with the targets 3 and 7, and the
    callable loss [half_squared_error].  Applied to each sample the model
    returns 3 and 7 and the loss is 0; the objective composed with
    [has_batch=False] applies the model to the whole batch, gets 10, and
    returns 29. *)
Lemma has_batch_false_is_not_lifted :
  let input := NDArray [2; 2] [q 1; q 2; q 3; q 4] in
  let target := vector [q 3; q 7] in
  let composed :=
    r <- concatenate_model_and_loss_fn [] (Supplied sum_model)
           (LS_callable half_squared_error) false ;;
    call_objective 2 r.1 r.2 [q 1] input target in
  let per_sample :=
    d <- half_squared_error (per_sample_stacked sum_model input) target ;;
    Returned (array_map (eval (env_of [q 1])) d) in
  composed = Returned (scalar (q 29)) /\
  per_sample = Returned (scalar (q 0)) /\
  composed <> per_sample.
Proof.
  assert (H1 : (r <- concatenate_model_and_loss_fn [] (Supplied sum_model)
                       (LS_callable half_squared_error) false ;;
                call_objective 2 r.1 r.2 [q 1]
                  (NDArray [2; 2] [q 1; q 2; q 3; q 4]) (vector [q 3; q 7])) =
               Returned (scalar (q 29))) by solve_concrete.
  assert (H2 : (d <- half_squared_error
                       (per_sample_stacked sum_model (NDArray [2; 2] [q 1; q 2; q 3; q 4]))
                       (vector [q 3; q 7]) ;;
                Returned (array_map (eval (env_of [q 1])) d)) =
               Returned (scalar (q 0))) by solve_concrete.
  cbv zeta. rewrite H1, H2. repeat split. intros [=].
Qed.

(** ** The objective of the squared-error selector *)

(** C4.  The objective that the composer returns for the squared-error
    selector does not compute one half of the sum of the squared
    deviations: its body looks up [jax.lax.l2_loss], an attribute that
    [jax.lax] does not have, so every call with three arguments raises
    [AttributeError] before [model_fn] is called, whatever the model,
    [has_batch], the parameters, the input and the target. *)
Theorem mse_objective_raises_attribute_error h0 f has_batch params input target fuel :
  exists h objective,
    concatenate_model_and_loss_fn h0 f (LS_member MSE) has_batch =
      Returned (h, objective) /\
    call_objective (S fuel) h objective params input target =
      Raised (AttributeError "jax.lax" "l2_loss").
Proof.
  eexists _, _. split; [reflexivity|].
  unfold call_objective.
  by rewrite (call_member_pos fuel _ _ MSE).
Qed.

(** C4, at a concrete input: the model scales its input [1, 2] by the
    parameter 3 and the target is [2, 4], so that one half of the sum of the
    squared deviations is 5/2; the objective composed for the squared-error
    selector raises [AttributeError] instead. *)
Lemma mse_objective_fails_on_a_batch :
  let composed :=
    r <- concatenate_model_and_loss_fn [] (Supplied scaling_model) (LS_member MSE) false ;;
    call_objective 2 r.1 r.2 [q 3] (vector [q 1; q 2]) (vector [q 2; q 4]) in
  composed = Raised (AttributeError "jax.lax" "l2_loss") /\
  composed <> Returned (scalar (q 5 * half)%Qc).
Proof. split; [reflexivity | discriminate]. Qed.

(** ** The Hessian-vector product of the quadratic objective *)

Lemma hvp_ext fuel func func' p v :
  func fuel = func' fuel -> hvp fuel func p v = hvp fuel func' p v.
Proof. intros Hf. unfold hvp, jax_jvp, jax_grad. by rewrite Hf. Qed.

Lemma hvp_quadratic n A p v fuel :
  square n A -> symmetric A -> length p = n -> length v = n ->
  hvp fuel (fun _ => Returned (scalar (quadratic n A))) p v = Returned (matvec A v).
Proof.
  intros HA Hsym Hp Hv. unfold hvp, jax_jvp.
  rewrite Hp, Hv, Nat.eqb_refl. cbn [negb jax_grad bind_outcome scalar shape data snd].
  f_equal. by apply gradient_tangent_quadratic.
Qed.

(** C1.  For a symmetric n-by-n matrix [A], the Hessian-vector product of
    the quadratic objective [f(p) = 0.5 * p @ A @ p] at any point [p], along
    any direction [v] of the shape of [p], is exactly [A @ v]: [hvp]
    returns it, and so does the operator that
    [create_hessian_mv_without_data] builds from [f] (given as the model,
    with a loss that passes the model output on), for every data batch. *)
Theorem hvp_of_quadratic_is_matrix_vector_product n A p v :
  square n A -> symmetric A -> length p = n -> length v = n ->
  (forall fuel,
     hvp fuel (fun _ => Returned (scalar (quadratic n A))) p v =
     Returned (matvec A v)) /\
  exists op,
    create_hessian_mv_without_data (quadratic_model n A) p
      (LS_callable output_as_objective) false = Returned op /\
    forall fuel (data : Data) input target,
      data !! "input" = Some input -> data !! "target" = Some target ->
      2 <= fuel ->
      op fuel v data = Returned (matvec A v).
Proof.
  intros HA Hsym Hp Hv. split; [intros fuel; by apply hvp_quadratic|].
  eexists. split; [reflexivity|].
  intros fuel data input target Hin Htg Hfuel.
  cbn [fst snd insert list_insert app length]. unfold _hessian_mv.
  rewrite (hvp_ext fuel _ (fun _ => Returned (scalar (quadratic n A)))).
  - by apply hvp_quadratic.
  - unfold getitem. rewrite Hin, Htg.
    destruct fuel as [|[|fuel]]; [lia..|]. reflexivity.
Qed.

Lemma hvp_of_quadratic_is_matrix_vector_product_witness :
  hvp 0 (fun _ => Returned (scalar (quadratic 2 [[q 2; q 1]; [q 1; q 3]])))
    [q 5; q 7] [q 1; q 10] =
  Returned (matvec [[q 2; q 1]; [q 1; q 3]] [q 1; q 10]).
Proof.
  apply (hvp_of_quadratic_is_matrix_vector_product 2
           [[q 2; q 1]; [q 1; q 3]] [q 5; q 7] [q 1; q 10]).
  - split; [reflexivity | by repeat constructor].
  - intros [|[|[|i]]] [|[|[|j]]]; try reflexivity;
      unfold entry; simpl; by destruct j.
  - reflexivity.
  - reflexivity.
Defined.

Lemma hvp_linear_witness :
  hvp 0 (fun _ => Returned (scalar (quadratic 2 [[q 2; q 1]; [q 1; q 3]])))
    [q 5; q 7] (lincomb (q 2) [q 1; q 0] (q 3) [q 0; q 1]) =
  (r1 <- hvp 0 (fun _ => Returned (scalar (quadratic 2 [[q 2; q 1]; [q 1; q 3]])))
           [q 5; q 7] [q 1; q 0] ;;
   r2 <- hvp 0 (fun _ => Returned (scalar (quadratic 2 [[q 2; q 1]; [q 1; q 3]])))
           [q 5; q 7] [q 0; q 1] ;;
   Returned (lincomb (q 2) r1 (q 3) r2)).
Proof. apply (hvp_linear 0 [q 5; q 7] [q 1; q 0] [q 0; q 1]); reflexivity. Defined.

(** ** [jax.lax.map] on a well-formed dataset *)

Section EvalFacts.
Context {V : Type} `{Inhabited V}.
Implicit Types (data : Dataset V) (t : tracer V) (pred_fn : PredFn V).

Lemma concat_chunks_take {A} n len (l : list A) :
  concat (chunks n len l) = take (n * len) l.
Proof.
  revert l. induction n as [|n IH]; intros l; simpl; [done|].
  by rewrite IH, take_take_drop.
Qed.

(** Batching does not change what is computed. *)
Lemma batched_map_is_map {A B} (f : A -> B) num_batches bs (l : list A) :
  concat (map (map f) (chunks num_batches bs l)) ++ map f (drop (num_batches * bs) l) =
  map f l.
Proof.
  rewrite <- concat_map, concat_chunks_take.
  rewrite <- map_app. by rewrite take_drop.
Qed.

Lemma common_size_uniform what (g : nat -> nat) n data :
  uniform n data -> data <> ∅ ->
  common_size what (map g (leading_sizes data)) = Returned (g n).
Proof.
  intros Hu Hne. unfold leading_sizes.
  assert (Hall : Forall (fun kv : string * list V => g (length kv.2) = g n) (map_to_list data)).
  { apply Forall_forall. intros [k col] Hk.
    apply elem_of_map_to_list in Hk. simpl. f_equal. by apply (Hu k). }
  destruct (map_to_list data) as [|[k col] rest] eqn:Hl.
  { by apply map_to_list_empty_iff in Hl. }
  inversion Hall as [|? ? Hhd Htl]; subst. simpl in *.
  rewrite Hhd.
  assert (forallb (Nat.eqb (g n)) (map g (map (fun kv : string * list V => length kv.2) rest)) = true) as ->; [|done].
  apply forallb_forall. intros x Hx.
  apply in_map_iff in Hx as (y & <- & Hy). apply in_map_iff in Hy as (kv & <- & Hkv).
  rewrite Forall_forall in Htl. apply list_elem_of_In in Hkv.
  rewrite (Htl kv Hkv). apply Nat.eqb_refl.
Qed.

(** Reading leaf [k] off the points of a dataset gives the leaf back. *)
Lemma points_column data n k (col : list V) :
  data !! k = Some col -> length col = n ->
  map (fun pt : point V => pt !!! k) (points data n) = col.
Proof.
  intros Hk Hn. unfold points. rewrite map_map.
  rewrite (list_as_map_nth inhabitant col) at 1. rewrite Hn.
  apply map_ext. intros i.
  rewrite lookup_total_alt, lookup_omap, Hk. simpl.
  by rewrite nth_lookup.
Qed.

Lemma point_tracers_lookup data k (col : list V) :
  data !! k = Some col ->
  point_tracers data !! k = Some (fun pt : point V => pt !!! k).
Proof. intros Hk. unfold point_tracers. by rewrite map_lookup_imap, Hk. Qed.

(** [jax.lax.map] on a dataset whose leaves have a common length, with no
    batch size or a positive one: the mapped function is traced, and every
    column of the result is its tracer run over the points in order. *)
Lemma lax_map_uniform f data batch_size n :
  uniform n data -> data <> ∅ -> batch_size <> Some 0 ->
  lax_map f data batch_size =
  (cols <- f (point_tracers data) ;;
   Returned ((fun t : tracer V => map t (points data n)) <$> cols)).
Proof.
  intros Hu Hne Hbs. unfold lax_map. destruct batch_size as [bs|].
  - destruct (Nat.eqb_spec bs 0) as [->|Hpos]; [done|].
    rewrite (common_size_uniform "scan" (fun n => n / bs) n) by done.
    cbn [bind_outcome]. destruct (f (point_tracers data)) as [cols| |]; [|done..].
    cbn [bind_outcome].
    rewrite (common_size_uniform "vmap" (fun m => m - n / bs * bs) n) by done.
    cbn [bind_outcome].
    assert (n / bs * bs <= n) by (rewrite Nat.mul_comm; apply Nat.Div0.mul_div_le).
    replace (n / bs * bs + (n - n / bs * bs)) with n by lia.
    f_equal. apply map_fmap_ext. intros k t _. apply batched_map_is_map.
  - pose proof (common_size_uniform "scan" id n data Hu Hne) as Hc.
    rewrite map_id in Hc. by rewrite Hc.
Qed.

Lemma evaluate_on_dataset_table pred_fn data kwargs (inputs targets : list V) n :
  data !! "input" = Some inputs -> data !! "target" = Some targets ->
  uniform n data ->
  kwargs_get2 kwargs "evaluate_on_dataset_batch_size" "data_batch_size" <> Some 0 ->
  evaluate_on_dataset pred_fn data kwargs =
  Returned (<["target" := targets]> ((fun g : V -> V => map g inputs) <$> pred_fn)).
Proof.
  intros Hin Htg Hu Hbs. unfold evaluate_on_dataset.
  rewrite (lax_map_uniform _ data _ n); [|done| |done].
  2:{ intros ->. by rewrite lookup_empty in Hin. }
  unfold getitem.
  rewrite (point_tracers_lookup data "input" inputs Hin).
  rewrite (point_tracers_lookup data "target" targets Htg).
  cbn [bind_outcome]. f_equal.
  rewrite fmap_insert, (points_column data n "target" targets) by eauto.
  f_equal. unfold apply_pred. rewrite <- map_fmap_compose.
  apply map_fmap_ext. intros k g _. simpl.
  rewrite <- (points_column data n "input" inputs) at 1 by eauto.
  by rewrite map_map.
Qed.

(** C6.  On a dataset of [n] points, with a positive batch size (whether
    or not it divides [n]), [evaluate_on_dataset] returns a table that does
    not depend on the batch size: the column of each prediction field is that
    field of [pred_fn] applied to the inputs in order, and the column
    [target] is the targets.  Every column has length [n], the entries at
    index [i] are [pred_fn] of the i-th input merged with the i-th target,
    and every other positive batch size gives the same table. *)
Theorem evaluate_on_dataset_independent_of_batch_size
    pred_fn data kwargs (inputs targets : list V) n batch_size :
  data !! "input" = Some inputs -> data !! "target" = Some targets ->
  uniform n data ->
  kwargs_get2 kwargs "evaluate_on_dataset_batch_size" "data_batch_size" =
    Some batch_size ->
  0 < batch_size ->
  exists tbl : table V,
    evaluate_on_dataset pred_fn data kwargs = Returned tbl /\
    tbl = <["target" := targets]> ((fun g : V -> V => map g inputs) <$> pred_fn) /\
    uniform n tbl /\
    (forall i x tg, inputs !! i = Some x -> targets !! i = Some tg ->
       omap (fun col : list V => col !! i) tbl =
       <["target" := tg]> ((fun g : V -> V => g x) <$> pred_fn)) /\
    (forall kwargs' batch_size',
       kwargs_get2 kwargs' "evaluate_on_dataset_batch_size" "data_batch_size" =
         Some batch_size' ->
       0 < batch_size' ->
       evaluate_on_dataset pred_fn data kwargs' = Returned tbl).
Proof.
  intros Hin Htg Hu Hkw Hpos. eexists.
  split; [|split; [reflexivity|split; [|split]]].
  - apply (evaluate_on_dataset_table _ _ _ inputs targets n); try done.
    rewrite Hkw. intros [= ->]. lia.
  - intros k col. rewrite lookup_insert_Some, lookup_fmap_Some.
    intros [[_ <-]|[_ (g & <- & _)]]; [by apply (Hu "target")|].
    rewrite length_map. by apply (Hu "input").
  - intros i x tg Hx Htgi.
    rewrite (omap_insert_Some _ _ _ _ tg) by done. f_equal.
    apply map_eq. intros k. rewrite lookup_omap, !lookup_fmap.
    destruct (pred_fn !! k) as [g|]; simpl; [|done].
    change (map g inputs) with (g <$> inputs).
    by rewrite list_lookup_fmap, Hx.
  - intros kwargs' bs' Hkw' Hpos'.
    apply (evaluate_on_dataset_table _ _ _ inputs targets n); try done.
    rewrite Hkw'. intros [= ->]. lia.
Qed.

(** ** Binding keyword arguments *)

Lemma foldl_bind_keyword_raised {A} s e (l : list (string * A)) :
  foldl (bind_keyword s) (Raised e) l = Raised e.
Proof. induction l as [|kv l IH]; simpl; [done | exact IH]. Qed.

(** Distinct keywords, each one a parameter that is still unbound or
    collected by [**kwargs], are all bound. *)
Lemma foldl_bind_keyword_ok {A} s (l : list (string * A)) (acc : gmap string A) :
  NoDup l.*1 ->
  (forall k, k ∈ l.*1 -> acc !! k = None) ->
  (forall k, k ∈ l.*1 -> k ∈ formals s \/ sig_var_kw s = true) ->
  foldl (bind_keyword s) (Returned acc) l = Returned (list_to_map l ∪ acc).
Proof.
  revert acc. induction l as [|[k v] l IH]; intros acc Hnd Hacc Hok.
  { simpl. by rewrite (left_id_L ∅ (∪)). }
  apply NoDup_cons in Hnd as [Hk Hnd]. cbn [foldl].
  assert (bind_keyword s (Returned acc) (k, v) = Returned (<[k := v]> acc)) as ->.
  { unfold bind_keyword. cbn [bind_outcome fst snd].
    rewrite (Hacc k) by (simpl; left).
    rewrite (bool_decide_eq_false_2 (is_Some None)) by (intros [? [=]]).
    destruct (Hok k) as [Hf|Hv]; [simpl; left| |].
    - by rewrite bool_decide_eq_true_2.
    - rewrite Hv. by destruct (bool_decide (k ∈ formals s)). }
  rewrite IH; [|done| |].
  - cbn [list_to_map foldr]. simpl.
    rewrite <- insert_union_r by by apply not_elem_of_list_to_map.
    by rewrite insert_union_l.
  - intros k' Hk'. rewrite lookup_insert_ne; [apply Hacc; simpl; by right|].
    intros ->. done.
  - intros k' Hk'. apply Hok. simpl. by right.
Qed.



(** A call by distinct keywords that the function accepts: the parameters
    without default that are not given are reported, and when there is none
    the keywords are bound as given. *)
Lemma bind_arguments_keywords {A} s (l : list (string * A)) :
  NoDup l.*1 ->
  (forall k, k ∈ l.*1 -> k ∈ formals s \/ sig_var_kw s = true) ->
  bind_arguments s [] l =
  match filter (fun k => (list_to_map l : gmap string A) !! k = None) (sig_required s) with
  | [] => Returned (list_to_map l)
  | missing => Raised (TypeError_missing_arguments (sig_name s) missing)
  end.
Proof.
  intros Hnd Hok. unfold bind_arguments.
  rewrite zip_with_nil_r. cbn [list_to_map foldr].
  rewrite foldl_bind_keyword_ok by (try done; intros; apply lookup_empty).
  cbn [bind_outcome]. rewrite (right_id_L ∅ (∪)).
  by destruct (length (formals s) <? length []) eqn:Hlen.
Qed.

Lemma filter_all_false {A} (P : A -> Prop) `{forall x, Decision (P x)} (l : list A) :
  (forall x, x ∈ l -> ~ P x) -> filter P l = [].
Proof.
  induction l as [|x l IH]; intros Hl; [done|].
  rewrite filter_cons_False by (apply Hl; left).
  apply IH. intros y Hy. apply Hl. by right.
Qed.

(** A call [f(k1=.., .., **kwargs)] that names every parameter of [f]
    explicitly, when no key of [kwargs] is a parameter of [f]: [f] receives
    [kwargs] as its own keyword dictionary. *)
Lemma keyword_call_ok s explicit (kwargs : gmap string (tracer V)) :
  sig_var_kw s = true -> NoDup explicit ->
  (forall k, k ∈ explicit <-> k ∈ formals s) ->
  (forall k, k ∈ formals s -> kwargs !! k = None) ->
  keyword_call s explicit kwargs = Returned kwargs.
Proof.
  intros Hvar Hnd Hex Hdisj. unfold keyword_call.
  set (ex := map (fun k : string => (k, @None (tracer V))) explicit).
  set (rest := map (fun kv : string * tracer V => (kv.1, Some kv.2)) (map_to_list kwargs)).
  assert (Hex1 : ex.*1 = explicit).
  { unfold ex. change (map ?f ?l) with (f <$> l).
    rewrite <- list_fmap_compose. apply list_fmap_id. }
  assert (Hrest1 : rest.*1 = (map_to_list kwargs).*1).
  { unfold rest. change (map ?f ?l) with (f <$> l).
    rewrite <- list_fmap_compose. done. }
  assert (Hrest : (list_to_map rest : gmap string (option (tracer V))) = Some <$> kwargs).
  { unfold rest.
    change (map _ (map_to_list kwargs)) with (prod_map id (@Some (tracer V)) <$> map_to_list kwargs).
    by rewrite list_to_map_fmap, list_to_map_to_list. }
  rewrite bind_arguments_keywords; [| |by right].
  2:{ rewrite fmap_app, Hex1, Hrest1. apply NoDup_app. split; [done|]. split.
      - intros k Hk Hk'. apply Hex in Hk. apply Hdisj in Hk.
        apply list_elem_of_fmap in Hk' as ([k' t] & -> & Hkt).
        apply elem_of_map_to_list in Hkt. simpl in Hk. congruence.
      - apply NoDup_fst_map_to_list. }
  rewrite filter_all_false.
  2:{ intros k Hk Hnone. apply not_elem_of_list_to_map in Hnone.
      apply Hnone. rewrite fmap_app, Hex1. apply elem_of_app. left.
      apply Hex. unfold formals. apply elem_of_app. by left. }
  cbn [bind_outcome]. f_equal. apply map_eq. intros k.
  rewrite lookup_omap, map_lookup_filter, list_to_map_app, lookup_union, Hrest.
  rewrite lookup_fmap. destruct (decide (k ∈ formals s)) as [Hk|Hk].
  - rewrite (Hdisj k Hk). simpl.
    destruct (list_to_map ex !! k) as [o|]; simpl; [|done].
    by rewrite option_guard_False by (simpl; tauto).
  - assert ((list_to_map ex : gmap string (option (tracer V))) !! k = None) as ->.
    { apply not_elem_of_list_to_map. rewrite Hex1. by rewrite Hex. }
    rewrite (left_id_L None _). destruct (kwargs !! k) as [t|]; simpl; [|done].
    by rewrite option_guard_True.
Qed.

(** ** Running the wrapped metrics *)

Lemma named_finalize_fns_fold (metrics : list (string * Metric))
    (kwargs : gmap string (tracer V)) (acc : outcome (results_t V * aux_t V)) :
  (forall k, k ∈ reserved_keywords -> kwargs !! k = None) ->
  (st <- foldl (fun acc nf => st <- acc ;; nf.2 st.1 st.2 nf.1 kwargs) acc
           (map (fun nf => (nf.1, named_finalize_fn_wrapper nf.2)) metrics) ;;
   Returned st.1) =
  foldl (fun acc nf => run_metric kwargs acc nf) (st <- acc ;; Returned st.1) metrics.
Proof.
  intros Hres. revert acc. induction metrics as [|[name fn] metrics IH]; intros acc.
  { done. }
  cbn [map foldl fst snd]. rewrite IH. f_equal.
  destruct acc as [[results aux]| |]; cbn [bind_outcome fst snd]; [|done..].
  unfold named_finalize_fn_wrapper, run_metric. cbn [bind_outcome fst snd].
  rewrite (keyword_call_ok sig_wrapper); [|done| | |].
  - cbn [bind_outcome]. by destruct (call_metric fn kwargs).
  - compute_done.
  - done.
  - intros k Hk. apply Hres. revert k Hk. apply Forall_forall. compute_done.
Qed.

(** [named_finalize_fns] on wrapped metrics, when no prediction field has
    the name of a parameter of [named_finalize_fns] or of the wrapper: the
    metrics are called in order on the prediction fields, each result
    stored under the name of its metric. *)
Lemma named_finalize_fns_wrapped (metrics : list (string * Metric))
    (results : results_t V) (aux : aux_t V) (kwargs : gmap string (tracer V)) :
  (forall k, k ∈ reserved_keywords -> kwargs !! k = None) ->
  named_finalize_fns (map (fun nf => (nf.1, named_finalize_fn_wrapper nf.2)) metrics)
    results aux kwargs =
  foldl (run_metric kwargs) (Returned results) metrics.
Proof.
  intros Hres. unfold named_finalize_fns.
  rewrite (keyword_call_ok sig_named_finalize_fns); [|done| | |].
  - cbn [bind_outcome]. by rewrite named_finalize_fns_fold.
  - compute_done.
  - done.
  - intros k Hk. apply Hres. revert k Hk. apply Forall_forall. compute_done.
Qed.


(** ** A metric that misses a field *)







Lemma call_metric_accepts (fn : Metric) (kwargs : gmap string (tracer V)) :
  accepts fn kwargs ->
  call_metric fn kwargs =
  match missing_fields fn kwargs with
  | [] => Returned (fun pt => metric_body fn ((fun t : tracer V => t pt) <$> kwargs))
  | missing => Raised (TypeError_missing_arguments (sig_name (metric_sig fn)) missing)
  end.
Proof.
  intros Hacc. unfold call_metric, missing_fields.
  rewrite bind_arguments_keywords.
  - rewrite list_to_map_to_list. by destruct (filter _ _).
  - apply NoDup_fst_map_to_list.
  - intros k Hk. apply list_elem_of_fmap in Hk as ([k' t] & -> & Hk).
    apply elem_of_map_to_list in Hk. destruct Hacc as [Hv|Hf]; [by right|left].
    apply Hf. simpl. by rewrite Hk.
Qed.

Lemma traced_prediction_reserved pred_fn k :
  k ∈ reserved_keywords -> pred_fn !! k = None ->
  traced_prediction pred_fn !! k = None.
Proof.
  intros Hk Hp. unfold traced_prediction, apply_pred.
  rewrite lookup_insert_ne; [by rewrite lookup_fmap, Hp|].
  intros <-. revert Hk. compute_done.
Qed.

Lemma traced_prediction_missing pred_fn k :
  k <> "target" -> pred_fn !! k = None ->
  traced_prediction pred_fn !! k = None.
Proof.
  intros Hk Hp. unfold traced_prediction, apply_pred.
  rewrite lookup_insert_ne by done. by rewrite lookup_fmap, Hp.
Qed.

(** [evaluate_metrics_on_dataset] on a well-formed dataset, when no
    prediction field clashes with a parameter name: the metrics are run in
    order on the traced prediction, every column is computed point by point,
    and [apply] is mapped over the columns. *)
Lemma evaluate_metrics_table {R} pred_fn data (metrics : list (string * Metric))
    (apply : list V -> R) kwargs (inputs targets : list V) n :
  data !! "input" = Some inputs -> data !! "target" = Some targets ->
  uniform n data ->
  kwargs_get2 kwargs "evaluate_metrics_on_dataset_batch_size" "data_batch_size"
    <> Some 0 ->
  (forall k, k ∈ reserved_keywords -> pred_fn !! k = None) ->
  evaluate_metrics_on_dataset pred_fn data metrics apply kwargs =
  (cols <- foldl (run_metric (traced_prediction pred_fn)) (Returned ∅) metrics ;;
   Returned (apply <$> ((fun t : tracer V => map t (points data n)) <$> cols))).
Proof.
  intros Hin Htg Hu Hbs Hres. unfold evaluate_metrics_on_dataset.
  rewrite (lax_map_uniform _ data _ n); [|done| |done].
  2:{ intros ->. by rewrite lookup_empty in Hin. }
  unfold getitem.
  rewrite (point_tracers_lookup data "input" inputs Hin).
  rewrite (point_tracers_lookup data "target" targets Htg).
  cbn [bind_outcome]. fold (traced_prediction pred_fn).
  rewrite named_finalize_fns_wrapped
    by (intros k Hk; apply traced_prediction_reserved; auto).
  by destruct (foldl _ _ metrics).
Qed.

(** ** The evaluation harness always comes to an end *)












End EvalFacts.

(** ** The squared error of exact predictions *)

Lemma map_pointwise_columns {P A B C} (a : P -> A) (b : P -> B) (h : A -> B -> C)
    (l : list P) :
  map (fun pt => h (a pt) (b pt)) l = zip_with h (map a l) (map b l).
Proof. induction l; simpl; congruence. Qed.

Lemma squared_error_traced field var_kw (g : K -> K) (pt : point K) :
  field <> "target" ->
  metric_body (squared_error field var_kw)
    ((fun t : tracer K => t pt) <$> traced_prediction {[field := g]}) =
  ((g (pt !!! "input") - pt !!! "target") * (g (pt !!! "input") - pt !!! "target"))%Qc.
Proof.
  intros Hf. unfold squared_error, traced_prediction, apply_pred. cbn [metric_body].
  rewrite !lookup_total_alt, !lookup_fmap.
  rewrite lookup_insert_eq, lookup_insert_ne by done.
  by rewrite lookup_fmap, lookup_singleton_eq.
Qed.

(** C7.  On a dataset of 4 points whose prediction field equals the target
    of every point, [evaluate_metrics_on_dataset] with
    [metrics = {"mse": squared_error}] and the identity as [apply] returns
    the table whose only entry, ["mse"], is the array of 4 zeros. *)
Theorem squared_error_of_exact_predictions field var_kw (g : K -> K)
    (data : Dataset K) (inputs targets : list K) kwargs :
  field ∉ "target" :: reserved_keywords ->
  data !! "input" = Some inputs -> data !! "target" = Some targets ->
  uniform 4 data ->
  map g inputs = targets ->
  kwargs_get2 kwargs "evaluate_metrics_on_dataset_batch_size" "data_batch_size"
    <> Some 0 ->
  evaluate_metrics_on_dataset {[field := g]} data
    [("mse", squared_error field var_kw)] id kwargs =
  Returned {["mse" := [0; 0; 0; 0]%Qc]}.
Proof.
  intros Hfield Hin Htg Hu Hg Hbs.
  assert (Hft : field <> "target") by (intros ->; apply Hfield; left).
  rewrite (evaluate_metrics_table _ _ _ _ _ inputs targets 4); [|done..|].
  2:{ intros k Hk. apply lookup_singleton_ne. intros ->. apply Hfield. by right. }
  cbn [foldl]. unfold run_metric. cbn [bind_outcome fst snd].
  rewrite call_metric_accepts.
  2:{ right. intros k Hk. unfold traced_prediction, apply_pred in Hk.
      unfold formals. cbn [squared_error metric_sig sig_required sig_optional app].
      destruct (decide (k = "target")) as [->|Hkt]; [set_solver|].
      rewrite lookup_insert_ne, lookup_fmap in Hk by done.
      destruct (decide (k = field)) as [->|Hkf]; [set_solver|].
      by rewrite lookup_singleton_ne in Hk. }
  unfold missing_fields. rewrite filter_all_false.
  2:{ intros k Hk. cbn [squared_error metric_sig sig_required] in Hk.
      unfold traced_prediction, apply_pred.
      apply elem_of_cons in Hk as [->|Hk].
      - rewrite lookup_insert_ne, lookup_fmap, lookup_singleton_eq by done. done.
      - apply list_elem_of_singleton in Hk as ->. by rewrite lookup_insert_eq. }
  cbn [bind_outcome]. f_equal.
  rewrite !fmap_insert, !fmap_empty, insert_empty. f_equal. unfold id.
  rewrite (map_ext _ _ (fun pt => squared_error_traced field var_kw g pt Hft)).
  rewrite (map_pointwise_columns (fun pt : point K => pt !!! "input")
             (fun pt : point K => pt !!! "target")
             (fun x y => ((g x - y) * (g x - y))%Qc)).
  rewrite (points_column data 4 "input" inputs), (points_column data 4 "target" targets);
    eauto.
  subst targets. rewrite zip_with_map_r.
  assert (Hlen : length inputs = 4) by eauto.
  destruct inputs as [|a [|b [|c [|d [|]]]]]; try done. simpl.
  repeat f_equal; ring.
Qed.

(** ** Instances *)

Lemma uniform_input_target {V} n (inputs targets : list V) :
  length inputs = n -> length targets = n ->
  uniform n (<["input" := inputs]> (<["target" := targets]> ∅)).
Proof.
  intros Hi Ht k col. rewrite !lookup_insert_Some, lookup_empty.
  intros [[_ <-]|[_ [[_ <-]|[_ [=]]]]]; done.
Qed.

Lemma evaluate_on_dataset_independent_of_batch_size_witness :
  evaluate_on_dataset example_pred_fn example_data {["data_batch_size" := Some 2]} =
  Returned (<["target" := [q 2; q 4; q 6; q 8; q 11]]>
              ((fun g : K -> K => map g [q 1; q 2; q 3; q 4; q 5]) <$> example_pred_fn)).
Proof.
  destruct (evaluate_on_dataset_independent_of_batch_size example_pred_fn example_data
              {["data_batch_size" := Some 2]}
              [q 1; q 2; q 3; q 4; q 5] [q 2; q 4; q 6; q 8; q 11] 5 2)
    as (tbl & Hev & -> & _).
  - reflexivity.
  - reflexivity.
  - by apply uniform_input_target.
  - reflexivity.
  - lia.
  - exact Hev.
Defined.

Lemma squared_error_of_exact_predictions_witness :
  evaluate_metrics_on_dataset {["pred_mean" := fun x : K => (x + x)%Qc]}
    (<["input" := [q 1; q 2; q 3; q 4]]> (<["target" := [q 2; q 4; q 6; q 8]]> ∅))
    [("mse", squared_error "pred_mean" false)] id ∅ =
  Returned {["mse" := [0; 0; 0; 0]%Qc]}.
Proof.
  apply (squared_error_of_exact_predictions "pred_mean" false (fun x => (x + x)%Qc) _
           [q 1; q 2; q 3; q 4] [q 2; q 4; q 6; q 8]).
  - compute_done.
  - reflexivity.
  - reflexivity.
  - by apply uniform_input_target.
  - solve_concrete.
  - discriminate.
Defined.



(** * Further properties of the code *)

(** ** The Hessian-vector product is a symmetric bilinear form *)

Section SecondOrder.
Variables (p u v : nat -> K) (env : nat -> dual K) (n : nat).
Hypothesis Henv : forall j, env j = (p j, v j).
Hypothesis Hu : forall j, n <= j -> u j = 0%Qc.

(** Forward mode computes the value and the directional derivative. *)
Lemma eval_dual e : eval env e = (eval p e, directional p v e).
Proof.
  induction e as [j|c|a IHa b IHb|a IHa b IHb|a IHa b IHb|d k a IHa];
    cbn [eval directional].
  - apply Henv.
  - reflexivity.
  - rewrite IHa, IHb. reflexivity.
  - rewrite IHa, IHb. reflexivity.
  - rewrite IHa, IHb. reflexivity.
  - rewrite IHa. reflexivity.
Qed.

(** The primal part of reverse mode run on dual numbers is reverse mode. *)
Lemma backprop_dual_primal e ct i :
  (backprop env e ct i).1 = backprop p e ct.1 i.
Proof.
  revert ct. induction e as [j|c|a IHa b IHb|a IHa b IHb|a IHa b IHb|d k a IHa];
    intros ct; cbn [backprop].
  - by destruct (i =? j)%nat.
  - reflexivity.
  - simpl. by rewrite IHa, IHb.
  - simpl. by rewrite IHa, IHb.
  - simpl. by rewrite IHa, IHb, !eval_dual.
  - rewrite IHa, eval_dual. reflexivity.
Qed.

(** Reverse mode agrees with forward mode: the gradient paired with a
    direction is the directional derivative, scaled by the cotangent. *)
Lemma backprop_paired e c :
  sumK (map (fun i => (u i * backprop p e c i)%Qc) (seq 0 n)) =
  (c * directional p u e)%Qc.
Proof.
  revert c. induction e as [j|c0|a IHa b IHb|a IHa b IHb|a IHa b IHb|d k a IHa];
    intros c; cbn [backprop directional].
  - erewrite map_ext.
    2:{ intros i. instantiate (1 := fun i => if (j =? i)%nat then (u i * c)%Qc else 0%Qc).
        simpl. rewrite Nat.eqb_sym. destruct (j =? i)%nat; simpl; ring. }
    rewrite (sumK_select (fun i => (u i * c)%Qc)).
    destruct (bool_decide (0 <= j < 0 + n)) eqn:Hj.
    + ring.
    + apply bool_decide_eq_false_1 in Hj. rewrite Hu by lia. ring.
  - simpl. erewrite map_ext; [|intros i; apply Qcmult_0_r].
    rewrite (sumK_map_scale 0%Qc (fun _ => 0%Qc)). ring.
  - simpl. erewrite map_ext; [|intros i; apply Qcmult_plus_distr_r].
    rewrite sumK_map_add, IHa, IHb. ring.
  - simpl. erewrite map_ext; [|intros i; apply Qcmult_plus_distr_r].
    rewrite sumK_map_add, IHa, IHb. ring.
  - simpl. erewrite map_ext; [|intros i; apply Qcmult_plus_distr_r].
    rewrite sumK_map_add, IHa, IHb. ring.
  - simpl. rewrite IHa. ring.
Qed.

End SecondOrder.

Section Symmetry.
Variables (p u v : nat -> K) (env : nat -> dual K) (n : nat).
Hypothesis Henv : forall j, env j = (p j, v j).
Hypothesis Hu : forall j, n <= j -> u j = 0%Qc.

(** The tangent part of reverse mode run on dual numbers, paired with a
    direction [u]: the cotangent's tangent times the derivative along [u],
    plus the cotangent times the second derivative along [u] and [v]. *)
Lemma backprop_tangent_paired e ct :
  sumK (map (fun i => (u i * (backprop env e ct i).2)%Qc) (seq 0 n)) =
  (ct.2 * directional p u e + ct.1 * mixed p u v e)%Qc.
Proof.
  revert ct. induction e as [j|c0|a IHa b IHb|a IHa b IHb|a IHa b IHb|d k a IHa];
    intros ct; cbn [backprop directional mixed].
  - erewrite map_ext.
    2:{ intros i. instantiate (1 := fun i => if (j =? i)%nat then (u i * ct.2)%Qc else 0%Qc).
        simpl. rewrite Nat.eqb_sym. destruct (j =? i)%nat; simpl; ring. }
    rewrite (sumK_select (fun i => (u i * ct.2)%Qc)).
    destruct (bool_decide (0 <= j < 0 + n)) eqn:Hj.
    + ring.
    + apply bool_decide_eq_false_1 in Hj. rewrite Hu by lia. ring.
  - simpl. erewrite map_ext; [|intros i; apply Qcmult_0_r].
    rewrite (sumK_map_scale 0%Qc (fun _ => 0%Qc)). ring.
  - simpl. erewrite map_ext; [|intros i; apply Qcmult_plus_distr_r].
    rewrite sumK_map_add, IHa, IHb. ring.
  - simpl. erewrite map_ext; [|intros i; apply Qcmult_plus_distr_r].
    rewrite sumK_map_add, IHa, IHb. simpl. ring.
  - simpl. erewrite map_ext; [|intros i; apply Qcmult_plus_distr_r].
    rewrite sumK_map_add, IHa, IHb.
    rewrite !(eval_dual p v env Henv). simpl. ring.
  - rewrite IHa, (eval_dual p v env Henv). simpl. ring.
Qed.

End Symmetry.

(** The second derivative does not depend on the order of the directions. *)
Lemma mixed_comm p u v e : mixed p u v e = mixed p v u e.
Proof.
  induction e as [j|c|a IHa b IHb|a IHa b IHb|a IHa b IHb|d k a IHa];
    cbn [mixed]; rewrite ?IHa, ?IHb; ring.
Qed.

Lemma env_of_beyond (l : list K) j : length l <= j -> env_of l j = 0%Qc.
Proof. intros Hj. unfold env_of. by apply nth_overflow. Qed.

Lemma dot_seq (u : list K) (g : nat -> K) :
  dot u (map g (seq 0 (length u))) =
  sumK (map (fun i => (env_of u i * g i)%Qc) (seq 0 (length u))).
Proof.
  unfold dot. rewrite (list_as_map_nth 0%Qc u) at 1.
  by rewrite zip_with_map_same.
Qed.

(** Forward over reverse mode, paired with a second direction, is the
    second derivative along both. *)
Lemma gradient_tangent_paired e (p u v : list K) :
  length u = length p -> length v = length p ->
  dot u (map snd (gradient e (zip p v))) =
  mixed (env_of p) (env_of u) (env_of v) e.
Proof.
  intros Hlu Hlv. unfold gradient.
  rewrite length_zip, Hlv, Nat.min_id, <- Hlu, map_map, dot_seq.
  rewrite (backprop_tangent_paired (env_of p) (env_of u) (env_of v)
             (env_of (zip p v)) (length u)).
  - simpl. ring.
  - intros j. by apply env_of_zip.
  - apply env_of_beyond.
Qed.

Lemma hvp_paired_symmetric fuel func (p u v : list K) :
  length u = length p -> length v = length p ->
  (r <- hvp fuel func p v ;; Returned (dot u r)) =
  (r <- hvp fuel func p u ;; Returned (dot v r)).
Proof.
  intros Hlu Hlv. unfold hvp, jax_jvp.
  rewrite Hlu, Hlv, Nat.eqb_refl. cbn [negb]. unfold jax_grad.
  destruct (func fuel) as [out| |]; cbn [bind_outcome]; [|done..].
  destruct out as [[|m s] [|e [|e' es]]]; cbn [shape data bind_outcome]; try done.
  cbn [snd]. f_equal.
  rewrite !gradient_tangent_paired by done. apply mixed_comm.
Qed.

(** X1.  The Hessian-vector product is symmetric: for every objective,
    every parameter point [p] and all directions [u] and [v] of the shape of
    [p], the inner product of [u] with [hvp] along [v] equals the inner
    product of [v] with [hvp] along [u]; when the objective cannot be
    differentiated both sides fail alike.  The same holds for the operator
    [_hessian_mv] on every data batch. *)
Theorem hvp_symmetric fuel (p u v : list K) :
  length u = length p -> length v = length p ->
  (forall func,
     (r <- hvp fuel func p v ;; Returned (dot u r)) =
     (r <- hvp fuel func p u ;; Returned (dot v r))) /\
  (forall h cell data,
     (r <- _hessian_mv h cell p fuel v data ;; Returned (dot u r)) =
     (r <- _hessian_mv h cell p fuel u data ;; Returned (dot v r))).
Proof.
  intros Hlu Hlv. split.
  - intros func. by apply hvp_paired_symmetric.
  - intros h cell data. unfold _hessian_mv. by apply hvp_paired_symmetric.
Qed.

Lemma hvp_symmetric_witness :
  let f : traced_fn :=
    fun _ => Returned (scalar (Add (Prim cube_tower 0 (Var 0)) (Mul (Var 0) (Var 1)))) in
  (r <- hvp 0 f [q 2; q 5] [q 1; q 3] ;; Returned (dot [q 4; q 7] r)) =
  (r <- hvp 0 f [q 2; q 5] [q 4; q 7] ;; Returned (dot [q 1; q 3] r)).
Proof.
  apply (hvp_symmetric 0 [q 2; q 5] [q 4; q 7] [q 1; q 3]); reflexivity.
Defined.

(** ** The operator built with [has_batch=False] *)

Lemma bind_outcome_returned {A} (c : outcome A) : (r <- c ;; Returned r) = c.
Proof. by destruct c. Qed.

(** The lambda of [_hessian_mv] over the objective composed with
    [has_batch=False] and a callable loss: the loss of the model output on
    the batch. *)
Lemma unlifted_operator_objective m (loss : LossCallable) (data : Data)
    input target fuel :
  data !! "input" = Some input -> data !! "target" = Some target -> 2 <= fuel ->
  (model_fn <- load [Closure (Lambda_custom loss) 1; Supplied m] 0 ;;
   input <- getitem data "input" ;;
   target <- getitem data "target" ;;
   out <- call fuel [Closure (Lambda_custom loss) 1; Supplied m] model_fn []
           [("params", V_params);
            ("input", V_array (Batched 0 input));
            ("target", V_array (Batched 0 target))] ;;
   Returned (unbatched out)) =
  loss (m input) target.
Proof.
  intros Hin Htg Hfuel. unfold getitem. rewrite Hin, Htg.
  cbn [load lookup list_lookup bind_outcome].
  destruct fuel as [|fuel]; [lia|].
  rewrite (call_lambda_kw fuel _ _ (LS_callable loss)). cbn [lambda_of as_callable].
  pose proof (unlifted_objective_call [Closure (Lambda_custom loss) 1] m loss
                input target (S fuel) Hfuel) as Hcall.
  unfold objective_args in Hcall. cbn [app length] in Hcall. rewrite Hcall.
  by destruct (loss (m input) target).
Qed.

(** X3.  For a callable loss and [has_batch] left at [False], the
    operator that [create_hessian_mv] returns is the Hessian-vector product
    of the objective [p -> loss_fn(model_fn(p, input), target)] on the bound
    data batch, at the parameters given. *)
Theorem create_hessian_mv_is_hvp_of_objective m params (data : Data)
    (loss : LossCallable) input target :
  data !! "input" = Some input -> data !! "target" = Some target ->
  exists op,
    create_hessian_mv m params data (LS_callable loss) false = Returned op /\
    forall fuel vector, 2 <= fuel ->
      op fuel vector =
      hvp fuel (fun _ => loss (m input) target) params vector.
Proof.
  intros Hin Htg. unfold create_hessian_mv, create_hessian_mv_without_data.
  cbn [is_none negb concatenate_model_and_loss_fn loss_eq is_callable as_callable
       bind_outcome fst snd app length insert list_insert].
  eexists. split; [reflexivity|].
  intros fuel vector Hfuel. unfold _hessian_mv. apply hvp_ext.
  by apply unlifted_operator_objective.
Qed.

Lemma create_hessian_mv_is_hvp_of_objective_witness :
  exists op,
    create_hessian_mv scaling_model [q 3]
      (<["input" := vector [q 1; q 2]]> (<["target" := vector [q 2; q 4]]> ∅))
      (LS_callable half_squared_error) false = Returned op /\
    op 2 [q 1] =
      hvp 2 (fun _ => half_squared_error (scaling_model (vector [q 1; q 2]))
                        (vector [q 2; q 4])) [q 3] [q 1].
Proof.
  destruct (create_hessian_mv_is_hvp_of_objective scaling_model [q 3]
              (<["input" := vector [q 1; q 2]]> (<["target" := vector [q 2; q 4]]> ∅))
              half_squared_error (vector [q 1; q 2]) (vector [q 2; q 4]))
    as (op & Hop & Hval); [reflexivity | reflexivity |].
  exists op. split; [exact Hop|]. apply Hval. lia.
Defined.

(** ** The operator on a data batch that lacks a key *)

Lemma hessian_mv_missing_key h cell f params fuel vector (data : Data) :
  load h cell = Returned f -> length vector = length params ->
  match data !! "input", data !! "target" with
  | None, _ => _hessian_mv h cell params fuel vector data = Raised (KeyError "input")
  | Some _, None => _hessian_mv h cell params fuel vector data = Raised (KeyError "target")
  | Some _, Some _ => True
  end.
Proof.
  intros Hload Hlen. unfold _hessian_mv, hvp, jax_jvp, jax_grad, getitem.
  rewrite Hlen, Nat.eqb_refl, Hload. cbn [negb bind_outcome].
  destruct (data !! "input"), (data !! "target"); done.
Qed.

Lemma created_operator m params loss_fn has_batch op :
  create_hessian_mv_without_data m params loss_fn has_batch = Returned op ->
  exists h f, load h 0 = Returned f /\ op = _hessian_mv h 0 params.
Proof.
  unfold create_hessian_mv_without_data.
  destruct (negb (is_none loss_fn)).
  - destruct (concatenate_model_and_loss_fn _ _ _ _) as [[h g]| |] eqn:Hc;
      cbn [bind_outcome fst snd]; [|done..].
    intros [= <-]. exists (<[0 := g]> h), g. split; [|done].
    unfold concatenate_model_and_loss_fn in Hc.
    assert (Hh : 0 < length h).
    { repeat case_match; try done; injection Hc as <- _;
        rewrite ?length_insert, ?length_app; simpl; lia. }
    unfold load. by rewrite list_lookup_insert_eq.
  - cbn [bind_outcome]. intros [= <-].
    exists (<[0 := Closure Def_fallback 0]> [Supplied m]), (Closure Def_fallback 0).
    by split.
Qed.

(** X4.  The operator that [create_hessian_mv_without_data] returns reads
    [data["input"]] and then [data["target"]] whenever it is applied,
    whatever the loss selector and [has_batch]: on a direction of the shape
    of the parameters and a data batch without the key [input] it raises
    [KeyError] for [input]; on one with [input] but without [target] it
    raises [KeyError] for [target]. *)
Theorem operator_reads_input_and_target m params loss_fn has_batch op :
  create_hessian_mv_without_data m params loss_fn has_batch = Returned op ->
  forall fuel vector (data : Data),
    length vector = length params ->
    (data !! "input" = None ->
     op fuel vector data = Raised (KeyError "input")) /\
    (forall input, data !! "input" = Some input -> data !! "target" = None ->
     op fuel vector data = Raised (KeyError "target")).
Proof.
  intros Hop fuel vector data Hlen.
  destruct (created_operator m params loss_fn has_batch op Hop) as (h & f & Hload & ->).
  pose proof (hessian_mv_missing_key h 0 f params fuel vector data Hload Hlen) as Hk.
  split.
  - intros Hin. by rewrite Hin in Hk.
  - intros input Hin Htg. by rewrite Hin, Htg in Hk.
Qed.

Lemma operator_reads_input_and_target_witness :
  (op <- create_hessian_mv_without_data scaling_model [q 3] (LS_member MSE) false ;;
   op 0 [q 1] (<["input" := vector [q 1; q 2]]> ∅)) = Raised (KeyError "target").
Proof.
  destruct (create_hessian_mv_without_data scaling_model [q 3] (LS_member MSE) false)
    as [op| |] eqn:Hop; [|discriminate Hop..].
  cbn [bind_outcome].
  apply (proj2 (operator_reads_input_and_target scaling_model [q 3] (LS_member MSE)
                  false op Hop 0 [q 1] (<["input" := vector [q 1; q 2]]> ∅) eq_refl)
           (vector [q 1; q 2])); reflexivity.
Defined.

(** ** The operator built with [has_batch=True] *)

(** X5.  With [has_batch=True] and a callable loss,
    [create_hessian_mv_without_data] returns an operator that never yields
    a product: on a direction of the shape of the parameters and a data
    batch with [input] and [target] it raises the rank error of [jax.vmap]
    (once the self-calls of the lifted [model_fn] have used up the axes of
    the input), and no application of it returns. *)
Theorem batched_operator_never_returns m params (loss : LossCallable) :
  exists op,
    create_hessian_mv_without_data m params (LS_callable loss) true = Returned op /\
    (forall fuel vector data r, op fuel vector data <> Returned r) /\
    (forall fuel vector (data : Data) input target,
       length vector = length params ->
       data !! "input" = Some input -> data !! "target" = Some target ->
       length (shape input) + 2 <= fuel ->
       op fuel vector data = Raised vmap_rank_error).
Proof.
  unfold create_hessian_mv_without_data.
  cbn [is_none negb concatenate_model_and_loss_fn loss_eq is_callable as_callable
       bind_outcome fst snd app length insert list_insert].
  eexists. split; [reflexivity|].
  set (h := [Closure (Lambda_custom loss) 1; Closure Def_lifted 1]).
  assert (Hload : load h 1 = Returned (Closure Def_lifted 1)) by reflexivity.
  assert (Hop : forall fuel vector (data : Data),
    _hessian_mv h 0 params fuel vector data =
    if negb (length params =? length vector)
    then Raised (ValueError "jvp called with different primal and tangent shapes")
    else match data !! "input", data !! "target" with
         | None, _ => Raised (KeyError "input")
         | Some _, None => Raised (KeyError "target")
         | Some input, Some _ =>
             if length (shape input) + 2 <=? fuel
             then Raised vmap_rank_error else Unfinished
         end).
  { intros fuel vector data. unfold _hessian_mv, hvp, jax_jvp.
    destruct (negb (length params =? length vector)); [done|].
    unfold jax_grad, getitem. cbn [load h lookup list_lookup bind_outcome].
    destruct (data !! "input") as [input|]; [|done].
    destruct (data !! "target") as [target|]; [|done]. cbn [bind_outcome].
    pose proof (lambda_over_lifted h 1 loss input target fuel Hload) as Hcall.
    assert (Hkw : call fuel h (Closure (Lambda_custom loss) 1) []
                    (objective_kwargs input target) =
                  call fuel h (Closure (Lambda_custom loss) 1)
                    (objective_args input target) []).
    { destruct fuel as [|fuel']; [done|].
      apply (call_lambda_kw fuel' h 1 (LS_callable loss)). }
    unfold objective_kwargs in Hkw. rewrite Hkw, Hcall.
    by destruct (_ <=? fuel). }
  split.
  - intros fuel vector data r. rewrite Hop.
    destruct (negb _); [done|].
    destruct (data !! "input"), (data !! "target"); try done.
    by destruct (_ <=? fuel).
  - intros fuel vector data input target Hlen Hin Htg Hfuel.
    rewrite Hop, Hin, Htg, Hlen, Nat.eqb_refl. cbn [negb].
    by rewrite (proj2 (Nat.leb_le _ fuel) Hfuel).
Qed.

Lemma batched_operator_never_returns_witness :
  exists op,
    create_hessian_mv_without_data scaling_model [q 3]
      (LS_callable half_squared_error) true = Returned op /\
    op 3 [q 1] (<["input" := vector [q 1; q 2]]> (<["target" := vector [q 2; q 4]]> ∅)) =
      Raised vmap_rank_error.
Proof.
  destruct (batched_operator_never_returns scaling_model [q 3] half_squared_error)
    as (op & Hop & _ & Hraise).
  exists op. split; [exact Hop|].
  apply (Hraise 3 [q 1] _ (vector [q 1; q 2]) (vector [q 2; q 4]));
    [reflexivity | reflexivity | reflexivity | simpl; lia].
Defined.

(** ** Running finalize functions one after another *)

Section FinalizeLoops.
Context {V : Type} `{Inhabited V}.
Implicit Types (results : results_t V) (aux : aux_t V) (kwargs : gmap string (tracer V)).

(** The loop of [named_finalize_fns] and of [finalize_fns], over any way
    [run] of calling an item on the state. *)
Section Loop.
Context {X : Type} (run : X -> results_t V -> aux_t V -> outcome (results_t V * aux_t V)).

Local Abbreviation loop := (foldl (fun acc x => st <- acc ;; run x st.1 st.2)).

Lemma loop_raised e l : loop (Raised e) l = Raised e.
Proof. induction l as [|x l IH]; simpl; [done | exact IH]. Qed.

Lemma loop_unfinished l : loop Unfinished l = Unfinished.
Proof. induction l as [|x l IH]; simpl; [done | exact IH]. Qed.

Lemma loop_keeps_aux l results aux st :
  (forall x r a r' a', x ∈ l -> run x r a = Returned (r', a') -> a' = a) ->
  loop (Returned (results, aux)) l = Returned st -> st.2 = aux.
Proof.
  revert results aux. induction l as [|x l IH]; intros results aux Hk; simpl.
  { by intros [= <-]. }
  cbn [bind_outcome fst snd].
  destruct (run x results aux) as [[r' a']| |] eqn:Hx.
  - assert (a' = aux) as -> by (eapply Hk; [by left | exact Hx]).
    apply IH. intros y r a r'' a'' Hy. apply Hk. by right.
  - by rewrite loop_raised.
  - by rewrite loop_unfinished.
Qed.

(** Running the loop over [l1 ++ l2] is running it over [l1] and then,
    from the results obtained, over [l2], when the items of [l1] hand on
    the [aux] they receive. *)
Lemma loop_app l1 l2 results aux :
  (forall x r a r' a', x ∈ l1 -> run x r a = Returned (r', a') -> a' = a) ->
  (st <- loop (Returned (results, aux)) (l1 ++ l2) ;; Returned st.1) =
  (r1 <- (st <- loop (Returned (results, aux)) l1 ;; Returned st.1) ;;
   st <- loop (Returned (r1, aux)) l2 ;; Returned st.1).
Proof.
  intros Hk. rewrite foldl_app.
  destruct (loop (Returned (results, aux)) l1) as [[r1 a1]| |] eqn:Hl1.
  - apply loop_keeps_aux in Hl1; [|done]. simpl in Hl1. by subst a1.
  - by rewrite loop_raised.
  - by rewrite loop_unfinished.
Qed.

End Loop.

Lemma wrapper_keeps_aux (fn : Metric) results aux name kwargs results' aux' :
  named_finalize_fn_wrapper fn results aux name kwargs = Returned (results', aux') ->
  aux' = aux.
Proof.
  unfold named_finalize_fn_wrapper.
  destruct (keyword_call _ _ _) as [kw| |]; cbn [bind_outcome]; [|done..].
  destruct (call_metric fn kw) as [r| |]; cbn [bind_outcome]; [|done..].
  by intros [= _ <-].
Qed.

(** X6.  Running the wrapped metrics of two dictionaries (with no name in
    common, so that their union lists the entries of the first and then
    those of the second) in one call of [named_finalize_fns] is the same as
    running those of the first and then, on the results obtained, those of
    the second; this holds for every [results], [aux] and keyword
    arguments, failures included. *)
Theorem named_finalize_fns_concatenation (metrics1 metrics2 : list (string * Metric))
    results aux kwargs :
  named_finalize_fns (wrap_metrics (metrics1 ++ metrics2)) results aux kwargs =
  (results1 <- named_finalize_fns (wrap_metrics metrics1) results aux kwargs ;;
   named_finalize_fns (wrap_metrics metrics2) results1 aux kwargs).
Proof.
  unfold named_finalize_fns, wrap_metrics. rewrite map_app.
  destruct (keyword_call sig_named_finalize_fns _ kwargs) as [kw| |];
    cbn [bind_outcome]; [|done..].
  rewrite (loop_app (fun (nf : string * named_step) r a => nf.2 r a nf.1 kw)).
  - by destruct (foldl _ _ (map _ metrics1)) as [[r1 a1]| |].
  - intros nf r a r' a' Hnf Hrun.
    apply list_elem_of_In, in_map_iff in Hnf as ([name fn] & <- & _).
    by eapply wrapper_keeps_aux.
Qed.

(** X7.  Running the functions [fns1 ++ fns2] in one call of
    [finalize_fns] is the same as running [fns1] and then, on the results
    obtained, [fns2], provided that the functions of [fns1] hand on the
    [aux] they are given ([finalize_fns] returns the results only, so a
    changed [aux] could not be passed to the second call). *)
Theorem finalize_fns_concatenation (fns1 fns2 : list step) results aux kwargs :
  Forall keeps_aux fns1 ->
  finalize_fns (fns1 ++ fns2) results aux kwargs =
  (results1 <- finalize_fns fns1 results aux kwargs ;;
   finalize_fns fns2 results1 aux kwargs).
Proof.
  intros Hk. unfold finalize_fns.
  destruct (keyword_call sig_finalize_fns _ kwargs) as [kw| |];
    cbn [bind_outcome]; [|done..].
  rewrite (loop_app (fun (func : step) r a => func r a kw)).
  - by destruct (foldl _ _ fns1) as [[r1 a1]| |].
  - intros func r a r' a' Hfunc Hrun.
    rewrite Forall_forall in Hk. by eapply (Hk func).
Qed.

End FinalizeLoops.

Lemma store_constant_keeps_aux {V} key (c : V) : keeps_aux (store_constant key c).
Proof. intros results aux kwargs results' aux'. by intros [= _ <-]. Qed.

Lemma finalize_fns_concatenation_witness :
  finalize_fns [store_constant "a" (q 1); store_constant "b" (q 2)] ∅ None ∅ =
  (results1 <- finalize_fns [store_constant "a" (q 1)] ∅ None ∅ ;;
   finalize_fns [store_constant "b" (q 2)] results1 None ∅).
Proof.
  apply (finalize_fns_concatenation [store_constant "a" (q 1)]
           [store_constant "b" (q 2)] ∅ None ∅).
  repeat constructor. apply store_constant_keeps_aux.
Defined.

(** ** What the wrapped metrics store *)

Section MetricResults.
Context {V : Type} `{Inhabited V}.
Implicit Types (data : Dataset V) (pred_fn : PredFn V)
  (results : results_t V) (aux : aux_t V) (kwargs : gmap string (tracer V)).

Lemma call_metric_binds kwargs (nf : string * Metric) :
  binds kwargs nf -> call_metric nf.2 kwargs = Returned (metric_on nf.2 kwargs).
Proof.
  intros [Hacc Hreq]. rewrite call_metric_accepts by done.
  unfold missing_fields. by rewrite filter_all_false by (intros k Hk; by apply Hreq).
Qed.

(** Metrics with distinct names that all bind: each one's value is stored
    under its name, every other entry of [results] is kept. *)
Lemma foldl_run_metric_lookup kwargs (metrics : list (string * Metric)) results :
  NoDup metrics.*1 -> Forall (binds kwargs) metrics ->
  exists results',
    foldl (run_metric kwargs) (Returned results) metrics = Returned results' /\
    (forall name fn, (name, fn) ∈ metrics ->
       results' !! name = Some (metric_on fn kwargs)) /\
    (forall k, k ∉ metrics.*1 -> results' !! k = results !! k).
Proof.
  intros Hnd Hall. revert results Hnd.
  induction Hall as [|[name fn] metrics Hb _ IH]; intros results Hnd; cbn [foldl].
  { eexists. split; [done|]. split; [|done].
    intros name fn Hin. by apply elem_of_nil in Hin. }
  apply NoDup_cons in Hnd as [Hname Hnd].
  unfold run_metric at 2. cbn [bind_outcome fst snd].
  pose proof (call_metric_binds kwargs (name, fn) Hb) as Hcall. cbn [snd] in Hcall.
  rewrite Hcall. cbn [bind_outcome].
  destruct (IH (<[name := metric_on fn kwargs]> results) Hnd)
    as (results' & -> & Hin & Hout).
  exists results'. split; [done|]. split.
  - intros name' fn' Hmem. apply elem_of_cons in Hmem as [[= -> ->]|Hmem].
    + by rewrite Hout, lookup_insert_eq.
    + by apply Hin.
  - intros k Hk. apply not_elem_of_cons in Hk as [Hne Hk].
    by rewrite Hout, lookup_insert_ne.
Qed.

(** X8.  [named_finalize_fns] on wrapped metrics with distinct names that
    all bind to the keyword arguments (none of which is named like a
    parameter of [named_finalize_fns] or of the wrapper): the dictionary
    returned holds, under the name of each metric, that metric applied to
    the keyword arguments, whatever the other metrics, their order and
    [aux] are; an entry of [results] under any other key is kept, and one
    under the name of a metric is overwritten. *)
Theorem named_finalize_fns_stores_each_metric (metrics : list (string * Metric))
    results aux kwargs :
  (forall k, k ∈ reserved_keywords -> kwargs !! k = None) ->
  NoDup metrics.*1 -> Forall (binds kwargs) metrics ->
  exists results',
    named_finalize_fns (wrap_metrics metrics) results aux kwargs = Returned results' /\
    (forall name fn, (name, fn) ∈ metrics ->
       results' !! name = Some (metric_on fn kwargs)) /\
    (forall k, k ∉ metrics.*1 -> results' !! k = results !! k).
Proof.
  intros Hres Hnd Hall. unfold wrap_metrics.
  rewrite named_finalize_fns_wrapped by done.
  by apply foldl_run_metric_lookup.
Qed.

End MetricResults.

Lemma named_finalize_fns_stores_each_metric_witness :
  exists results',
    named_finalize_fns
      (wrap_metrics [("mse", squared_error "pred_mean" false)])
      {["old" := fun _ => q 7]} None
      (traced_prediction example_pred_fn) = Returned results' /\
    results' !! "mse" =
      Some (metric_on (squared_error "pred_mean" false)
              (traced_prediction example_pred_fn)) /\
    results' !! "old" = Some (fun _ => q 7).
Proof.
  destruct (named_finalize_fns_stores_each_metric
              [("mse", squared_error "pred_mean" false)]
              {["old" := fun _ : point K => q 7]} None
              (traced_prediction example_pred_fn))
    as (results' & Hrun & Hin & Hout).
  - intros k Hk. apply traced_prediction_reserved; [done|].
    revert k Hk. apply Forall_forall. repeat constructor.
  - repeat constructor. set_solver.
  - apply Forall_cons. split; [split | by apply Forall_nil].
    + right. intros k Hk. unfold traced_prediction, apply_pred, example_pred_fn in Hk.
      destruct (decide (k = "target")) as [->|Ht]; [set_solver|].
      rewrite lookup_insert_ne, lookup_fmap in Hk by done.
      destruct (decide (k = "pred_mean")) as [->|Hp]; [set_solver|].
      by rewrite lookup_singleton_ne in Hk.
    + intros k Hk. cbn in Hk.
      apply elem_of_cons in Hk as [->|Hk]; [done|].
      apply list_elem_of_singleton in Hk as ->. done.
  - exists results'. split; [exact Hrun|]. split.
    + apply Hin. by left.
    + rewrite Hout; [apply lookup_singleton_eq|].
      intros Hmem. apply list_elem_of_singleton in Hmem. discriminate Hmem.
Defined.

(** ** The metrics are computed row by row on the prediction table *)

Section MetricTable.
Context {V : Type} `{Inhabited V}.
Implicit Types (data : Dataset V) (pred_fn : PredFn V).

(** The traced prediction at the i-th data point is the i-th row of the
    table of [evaluate_on_dataset]. *)
Lemma traced_prediction_row pred_fn data (inputs targets : list V) n i :
  data !! "input" = Some inputs -> data !! "target" = Some targets ->
  length inputs = n -> length targets = n -> i < n ->
  (fun t : tracer V => t (omap (fun col : list V => col !! i) data)) <$>
    traced_prediction pred_fn =
  omap (fun col : list V => col !! i)
    (<["target" := targets]> ((fun g : V -> V => map g inputs) <$> pred_fn)).
Proof.
  intros Hin Htg Hli Hlt Hi.
  destruct (lookup_lt_is_Some_2 inputs i) as [x Hx]; [lia|].
  destruct (lookup_lt_is_Some_2 targets i) as [tg Htgi]; [lia|].
  unfold traced_prediction, apply_pred.
  rewrite fmap_insert, <- map_fmap_compose.
  rewrite (omap_insert_Some _ _ _ _ tg) by done.
  assert (Hpi : omap (fun col : list V => col !! i) data !!! "input" = x).
  { rewrite lookup_total_alt, lookup_omap, Hin. simpl. by rewrite Hx. }
  assert (Hpt : omap (fun col : list V => col !! i) data !!! "target" = tg).
  { rewrite lookup_total_alt, lookup_omap, Htg. simpl. by rewrite Htgi. }
  rewrite Hpt. f_equal. apply map_eq. intros k. rewrite lookup_omap, !lookup_fmap.
  destruct (pred_fn !! k) as [g|]; simpl; [|done].
  rewrite Hpi. change (map g inputs) with (g <$> inputs).
  by rewrite list_lookup_fmap, Hx.
Qed.

(** X9.  On a dataset of [n] points, for metrics with distinct names that
    all bind to the prediction fields and the target (no prediction field
    being named like a parameter of [named_finalize_fns] or of the
    wrapper), [evaluate_metrics_on_dataset] returns, under the name of each
    metric and under no other key, [apply] of the column obtained by running
    the metric on each row of the table that [evaluate_on_dataset] returns
    for the same [pred_fn] and data.  Neither batch size matters as long as
    it is not 0. *)
Theorem metrics_are_computed_on_the_rows_of_the_table {R} pred_fn data
    (metrics : list (string * Metric)) (apply : list V -> R) kwargs kwargs'
    (inputs targets : list V) n :
  data !! "input" = Some inputs -> data !! "target" = Some targets ->
  uniform n data ->
  kwargs_get2 kwargs "evaluate_metrics_on_dataset_batch_size" "data_batch_size"
    <> Some 0 ->
  kwargs_get2 kwargs' "evaluate_on_dataset_batch_size" "data_batch_size" <> Some 0 ->
  (forall k, k ∈ reserved_keywords -> pred_fn !! k = None) ->
  NoDup metrics.*1 -> Forall (binds (traced_prediction pred_fn)) metrics ->
  exists (tbl : table V) (evaluated : gmap string R),
    evaluate_on_dataset pred_fn data kwargs' = Returned tbl /\
    evaluate_metrics_on_dataset pred_fn data metrics apply kwargs = Returned evaluated /\
    (forall name fn, (name, fn) ∈ metrics ->
       evaluated !! name = Some (apply (map (metric_body fn) (points tbl n)))) /\
    (forall k, k ∉ metrics.*1 -> evaluated !! k = None).
Proof.
  intros Hin Htg Hu Hbs Hbs' Hres Hnd Hall.
  rewrite (evaluate_on_dataset_table _ _ _ inputs targets n) by done.
  rewrite (evaluate_metrics_table _ _ _ _ _ inputs targets n) by done.
  destruct (foldl_run_metric_lookup (traced_prediction pred_fn) metrics ∅ Hnd Hall)
    as (cols & -> & Hcols & Hother).
  cbn [bind_outcome]. eexists _, _. split; [reflexivity|]. split; [reflexivity|].
  split.
  - intros name fn Hmem. rewrite !lookup_fmap, (Hcols name fn Hmem). simpl.
    do 2 f_equal. unfold points. rewrite !map_map.
    apply map_ext_in. intros i Hi. apply in_seq in Hi. unfold metric_on. f_equal.
    apply (traced_prediction_row _ _ inputs targets n); eauto; lia.
  - intros k Hk. by rewrite !lookup_fmap, (Hother k Hk), lookup_empty.
Qed.

End MetricTable.

Lemma metrics_are_computed_on_the_rows_of_the_table_witness :
  exists (tbl : table K) (evaluated : gmap string (list K)),
    evaluate_on_dataset example_pred_fn example_data ∅ = Returned tbl /\
    evaluate_metrics_on_dataset example_pred_fn example_data
      [("mse", squared_error "pred_mean" false)] id {["data_batch_size" := Some 2]} =
      Returned evaluated /\
    evaluated !! "mse" =
      Some (map (metric_body (squared_error "pred_mean" false)) (points tbl 5)).
Proof.
  destruct (metrics_are_computed_on_the_rows_of_the_table example_pred_fn example_data
              [("mse", squared_error "pred_mean" false)] id
              {["data_batch_size" := Some 2]} ∅
              [q 1; q 2; q 3; q 4; q 5] [q 2; q 4; q 6; q 8; q 11] 5)
    as (tbl & evaluated & Htbl & Hev & Hin & _).
  - reflexivity.
  - reflexivity.
  - by apply uniform_input_target.
  - discriminate.
  - discriminate.
  - apply Forall_forall. repeat constructor.
  - repeat constructor. set_solver.
  - apply Forall_cons. split; [split | by apply Forall_nil].
    + right. intros k Hk. unfold traced_prediction, apply_pred, example_pred_fn in Hk.
      destruct (decide (k = "target")) as [->|Ht]; [set_solver|].
      rewrite lookup_insert_ne, lookup_fmap in Hk by done.
      destruct (decide (k = "pred_mean")) as [->|Hp]; [set_solver|].
      by rewrite lookup_singleton_ne in Hk.
    + intros k Hk. cbn in Hk.
      apply elem_of_cons in Hk as [->|Hk]; [done|].
      apply list_elem_of_singleton in Hk as ->. done.
  - exists tbl, evaluated. split; [exact Htbl|]. split; [exact Hev|].
    apply (Hin "mse"). by left.
Defined.

(** ** A dataset that lacks a key *)

Section MissingKey.
Context {V : Type} `{Inhabited V}.
Implicit Types (data : Dataset V) (pred_fn : PredFn V).

Lemma point_tracers_none data k :
  data !! k = None -> point_tracers data !! k = None.
Proof. intros Hk. unfold point_tracers. by rewrite map_lookup_imap, Hk. Qed.

(** X10.  [evaluate_on_dataset] reads [dp["input"]] and then
    [dp["target"]] of the mapped data point: on a dataset (with leaves of a
    common length, and a batch size other than 0) that has no leaf [input] it
    raises [KeyError] for [input], and on one with [input] but without
    [target] it raises [KeyError] for [target]; [pred_fn] does not matter. *)
Theorem evaluate_on_dataset_reads_input_and_target pred_fn data kwargs n :
  uniform n data -> data <> ∅ ->
  kwargs_get2 kwargs "evaluate_on_dataset_batch_size" "data_batch_size" <> Some 0 ->
  (data !! "input" = None ->
   evaluate_on_dataset pred_fn data kwargs = Raised (KeyError "input")) /\
  (forall inputs, data !! "input" = Some inputs -> data !! "target" = None ->
   evaluate_on_dataset pred_fn data kwargs = Raised (KeyError "target")).
Proof.
  intros Hu Hne Hbs. unfold evaluate_on_dataset.
  rewrite (lax_map_uniform _ data _ n) by done. unfold getitem. split.
  - intros Hin. by rewrite (point_tracers_none data "input" Hin).
  - intros inputs Hin Htg.
    rewrite (point_tracers_lookup data "input" inputs Hin).
    by rewrite (point_tracers_none data "target" Htg).
Qed.

(** X11.  [evaluate_metrics_on_dataset] reads [dp["input"]] and then
    [dp["target"]] before any metric is called: on a dataset (with leaves of
    a common length, and a batch size other than 0) that has no leaf [input]
    it raises [KeyError] for [input], and on one with [input] but without
    [target] it raises [KeyError] for [target], whatever the metrics are,
    also when there is none. *)
Theorem evaluate_metrics_reads_input_and_target {R} pred_fn data
    (metrics : list (string * Metric)) (apply : list V -> R) kwargs n :
  uniform n data -> data <> ∅ ->
  kwargs_get2 kwargs "evaluate_metrics_on_dataset_batch_size" "data_batch_size"
    <> Some 0 ->
  (data !! "input" = None ->
   evaluate_metrics_on_dataset pred_fn data metrics apply kwargs =
     Raised (KeyError "input")) /\
  (forall inputs, data !! "input" = Some inputs -> data !! "target" = None ->
   evaluate_metrics_on_dataset pred_fn data metrics apply kwargs =
     Raised (KeyError "target")).
Proof.
  intros Hu Hne Hbs. unfold evaluate_metrics_on_dataset.
  rewrite (lax_map_uniform _ data _ n) by done. unfold getitem. split.
  - intros Hin. by rewrite (point_tracers_none data "input" Hin).
  - intros inputs Hin Htg.
    rewrite (point_tracers_lookup data "input" inputs Hin).
    by rewrite (point_tracers_none data "target" Htg).
Qed.

End MissingKey.

Lemma uniform_singleton {V} k (col : list V) : uniform (length col) ({[k := col]}).
Proof.
  intros k' col'. rewrite lookup_singleton_Some. by intros [_ <-].
Qed.

Lemma evaluate_on_dataset_reads_input_and_target_witness :
  evaluate_on_dataset example_pred_fn {["input" := [q 1; q 2; q 3]]}
    {["data_batch_size" := Some 2]} = Raised (KeyError "target").
Proof.
  destruct (evaluate_on_dataset_reads_input_and_target example_pred_fn
              {["input" := [q 1; q 2; q 3]]} {["data_batch_size" := Some 2]} 3)
    as [_ Htarget].
  - apply (uniform_singleton "input" [q 1; q 2; q 3]).
  - apply insert_non_empty.
  - intros Hbs. vm_compute in Hbs. discriminate Hbs.
  - apply (Htarget [q 1; q 2; q 3]); reflexivity.
Defined.

Lemma evaluate_metrics_reads_input_and_target_witness :
  evaluate_metrics_on_dataset example_pred_fn {["target" := [q 1; q 2; q 3]]}
    [("mse", squared_error "pred_mean" false)] id ∅ = Raised (KeyError "input").
Proof.
  destruct (evaluate_metrics_reads_input_and_target example_pred_fn
              {["target" := [q 1; q 2; q 3]]}
              [("mse", squared_error "pred_mean" false)] id ∅ 3)
    as [Hinput _].
  - apply (uniform_singleton "target" [q 1; q 2; q 3]).
  - apply insert_non_empty.
  - discriminate.
  - apply Hinput. reflexivity.
Defined.

(** ** A prediction field named like a parameter of the harness *)

(** A keyword that names a parameter which is already bound, all other
    keywords being distinct, fresh and acceptable: the call fails with
    "multiple values" for that keyword. *)
Lemma foldl_bind_keyword_clash {A} s (l : list (string * A)) (acc : gmap string A) k :
  NoDup l.*1 -> k ∈ l.*1 -> k ∈ formals s -> is_Some (acc !! k) ->
  (forall k', k' ∈ l.*1 -> k' <> k ->
     acc !! k' = None /\ (k' ∈ formals s \/ sig_var_kw s = true)) ->
  foldl (bind_keyword s) (Returned acc) l =
  Raised (TypeError_multiple_values (sig_name s) k).
Proof.
  revert acc. induction l as [|[k0 v] l IH]; intros acc Hnd Hk Hf Hacc Hrest.
  { by apply elem_of_nil in Hk. }
  apply NoDup_cons in Hnd as [Hk0 Hnd]. cbn [foldl].
  destruct (decide (k0 = k)) as [->|Hne].
  - assert (bind_keyword s (Returned acc) (k, v) =
            Raised (TypeError_multiple_values (sig_name s) k)) as ->.
    { unfold bind_keyword. cbn [bind_outcome fst snd].
      by rewrite bool_decide_eq_true_2, bool_decide_eq_true_2. }
    apply foldl_bind_keyword_raised.
  - destruct (Hrest k0) as [Hnone Hok]; [by left | done |].
    assert (bind_keyword s (Returned acc) (k0, v) = Returned (<[k0 := v]> acc)) as ->.
    { unfold bind_keyword. cbn [bind_outcome fst snd]. rewrite Hnone.
      rewrite (bool_decide_eq_false_2 (is_Some None)) by (intros [? [=]]).
      destruct Hok as [Hin|Hv].
      - by rewrite bool_decide_eq_true_2.
      - rewrite Hv. by destruct (bool_decide (k0 ∈ formals s)). }
    apply IH; [done| | done | |].
    + apply elem_of_cons in Hk as [->|Hk]; done.
    + by rewrite lookup_insert_ne.
    + intros k' Hk' Hk'ne. destruct (Hrest k') as [Hn Ho]; [by right | done |].
      split; [|done]. rewrite lookup_insert_ne; [done|]. by intros ->.
Qed.

Section ReservedNames.
Context {V : Type} `{Inhabited V}.
Implicit Types (data : Dataset V) (pred_fn : PredFn V).

(** A call [f(k1=.., .., **kwargs)] in which [kwargs] repeats one of the
    explicit keywords. *)
Lemma keyword_call_clash s explicit (kwargs : gmap string (tracer V)) k :
  sig_var_kw s = true -> NoDup explicit ->
  (forall k, k ∈ explicit <-> k ∈ formals s) ->
  k ∈ explicit -> is_Some (kwargs !! k) ->
  (forall k', k' ∈ explicit -> k' <> k -> kwargs !! k' = None) ->
  keyword_call s explicit kwargs = Raised (TypeError_multiple_values (sig_name s) k).
Proof.
  intros Hvar Hnd Hex Hk [t Hkt] Hothers. unfold keyword_call, bind_arguments.
  set (ex := map (fun k : string => (k, @None (tracer V))) explicit).
  set (rest := map (fun kv : string * tracer V => (kv.1, Some kv.2)) (map_to_list kwargs)).
  assert (Hex1 : ex.*1 = explicit).
  { unfold ex. change (map ?f ?l) with (f <$> l).
    rewrite <- list_fmap_compose. apply list_fmap_id. }
  assert (Hrest1 : rest.*1 = (map_to_list kwargs).*1).
  { unfold rest. change (map ?f ?l) with (f <$> l).
    rewrite <- list_fmap_compose. done. }
  rewrite zip_with_nil_r. cbn [list_to_map foldr]. rewrite foldl_app.
  rewrite foldl_bind_keyword_ok.
  2:{ by rewrite Hex1. }
  2:{ intros; apply lookup_empty. }
  2:{ intros k' Hk'. by right. }
  rewrite (foldl_bind_keyword_clash s rest _ k); [done| | | | |].
  - rewrite Hrest1. apply NoDup_fst_map_to_list.
  - rewrite Hrest1. apply list_elem_of_fmap. exists (k, t). split; [done|].
    by apply elem_of_map_to_list.
  - by apply Hex.
  - rewrite lookup_union_l by apply lookup_empty.
    destruct (list_to_map ex !! k) as [o|] eqn:Ho; [done|].
    apply not_elem_of_list_to_map in Ho. by rewrite Hex1 in Ho.
  - intros k' Hk' Hne. split; [|by right].
    rewrite lookup_union_l by apply lookup_empty.
    apply not_elem_of_list_to_map. rewrite Hex1. intros Hin.
    rewrite Hrest1 in Hk'. apply list_elem_of_fmap in Hk' as ([k'' t'] & -> & Hmem).
    apply elem_of_map_to_list in Hmem. simpl in *.
    rewrite (Hothers k'' Hin Hne) in Hmem. done.
Qed.

(** [evaluate_metrics_on_dataset] on a well-formed dataset: the wrapped
    metrics are run once, on the traced prediction. *)
Lemma evaluate_metrics_traced {R} pred_fn data (metrics : list (string * Metric))
    (apply : list V -> R) kwargs (inputs targets : list V) n :
  data !! "input" = Some inputs -> data !! "target" = Some targets ->
  uniform n data ->
  kwargs_get2 kwargs "evaluate_metrics_on_dataset_batch_size" "data_batch_size"
    <> Some 0 ->
  evaluate_metrics_on_dataset pred_fn data metrics apply kwargs =
  (cols <- named_finalize_fns (wrap_metrics metrics) ∅ None (traced_prediction pred_fn) ;;
   Returned (apply <$> ((fun t : tracer V => map t (points data n)) <$> cols))).
Proof.
  intros Hin Htg Hu Hbs. unfold evaluate_metrics_on_dataset.
  rewrite (lax_map_uniform _ data _ n); [|done| |done].
  2:{ intros ->. by rewrite lookup_empty in Hin. }
  unfold getitem.
  rewrite (point_tracers_lookup data "input" inputs Hin).
  rewrite (point_tracers_lookup data "target" targets Htg).
  cbn [bind_outcome]. fold (traced_prediction pred_fn). fold (wrap_metrics metrics).
  by destruct (named_finalize_fns _ _ _ _).
Qed.

Lemma traced_prediction_field pred_fn k :
  k <> "target" -> is_Some (pred_fn !! k) -> is_Some (traced_prediction pred_fn !! k).
Proof.
  intros Hk [g Hg]. unfold traced_prediction, apply_pred.
  rewrite lookup_insert_ne by done. rewrite lookup_fmap, Hg. by eexists.
Qed.

(** X12.  The prediction fields are passed on as keyword arguments, so a
    field named like a parameter of the harness breaks the evaluation on
    every well-formed dataset: with a field named [fns], [results] or [aux]
    (one of them) the call of [named_finalize_fns] fails with "multiple
    values" for that keyword, whatever the metrics are; with a field named
    [name] (and none of the three) the call of the first wrapped metric
    fails with "multiple values" for [name]. *)
Theorem reserved_prediction_field_is_rejected {R} pred_fn data
    (metrics : list (string * Metric)) (apply : list V -> R) kwargs
    (inputs targets : list V) n :
  data !! "input" = Some inputs -> data !! "target" = Some targets ->
  uniform n data ->
  kwargs_get2 kwargs "evaluate_metrics_on_dataset_batch_size" "data_batch_size"
    <> Some 0 ->
  (forall k, k ∈ explicit_keywords -> is_Some (pred_fn !! k) ->
     (forall k', k' ∈ explicit_keywords -> k' <> k -> pred_fn !! k' = None) ->
     evaluate_metrics_on_dataset pred_fn data metrics apply kwargs =
       Raised (TypeError_multiple_values "named_finalize_fns" k)) /\
  (is_Some (pred_fn !! "name") ->
   (forall k', k' ∈ explicit_keywords -> pred_fn !! k' = None) ->
   metrics <> [] ->
   evaluate_metrics_on_dataset pred_fn data metrics apply kwargs =
     Raised (TypeError_multiple_values "wrapper" "name")).
Proof.
  intros Hin Htg Hu Hbs.
  assert (Hnt : forall k, k ∈ explicit_keywords -> k <> "target").
  { apply Forall_forall. compute_done. }
  assert (Hnone : forall k, k <> "target" -> pred_fn !! k = None ->
                    traced_prediction pred_fn !! k = None)
    by (intros; by apply traced_prediction_missing).
  split.
  - intros k Hk Hfield Hothers.
    rewrite (evaluate_metrics_traced _ _ _ _ _ inputs targets n) by done.
    unfold named_finalize_fns. fold explicit_keywords.
    rewrite (keyword_call_clash sig_named_finalize_fns explicit_keywords _ k); [done|..].
    + done.
    + compute_done.
    + done.
    + done.
    + apply traced_prediction_field; auto.
    + intros k' Hk' Hne. apply Hnone; auto.
  - intros Hname Hothers Hm.
    rewrite (evaluate_metrics_traced _ _ _ _ _ inputs targets n) by done.
    unfold named_finalize_fns. fold explicit_keywords.
    rewrite (keyword_call_ok sig_named_finalize_fns); [|done| | |].
    2:{ compute_done. }
    2:{ done. }
    2:{ intros k Hk. apply Hnone; [by apply Hnt | by apply Hothers]. }
    cbn [bind_outcome]. destruct metrics as [|[name0 fn] metrics]; [done|].
    unfold wrap_metrics. cbn [map foldl bind_outcome fst snd].
    unfold named_finalize_fn_wrapper at 1.
    rewrite (keyword_call_clash sig_wrapper ["results"; "aux"; "name"] _ "name").
    + cbn [bind_outcome].
      by rewrite (loop_raised (fun (nf : string * named_step) r a =>
                    nf.2 r a nf.1 (traced_prediction pred_fn))).
    + done.
    + compute_done.
    + done.
    + compute_done.
    + apply traced_prediction_field; [done | exact Hname].
    + intros k' Hk' Hne.
      assert (Hcases : k' = "results" \/ k' = "aux").
      { apply elem_of_cons in Hk' as [->|Hk']; [by left|].
        apply elem_of_cons in Hk' as [->|Hk']; [by right|].
        by apply list_elem_of_singleton in Hk'. }
      destruct Hcases as [->| ->]; (apply Hnone; [done | apply Hothers; compute_done]).
Qed.

End ReservedNames.

Lemma reserved_prediction_field_is_rejected_witness :
  evaluate_metrics_on_dataset {["name" := fun x : K => x]} example_data
    [("mse", squared_error "name" true)] id ∅ =
  Raised (TypeError_multiple_values "wrapper" "name").
Proof.
  destruct (reserved_prediction_field_is_rejected {["name" := fun x : K => x]}
              example_data [("mse", squared_error "name" true)] id ∅
              [q 1; q 2; q 3; q 4; q 5] [q 2; q 4; q 6; q 8; q 11] 5)
    as [_ Hname].
  - reflexivity.
  - reflexivity.
  - by apply uniform_input_target.
  - discriminate.
  - apply Hname.
    + by eexists.
    + apply Forall_forall. repeat constructor.
    + discriminate.
Defined.
